(** * Eager versus lazy start of coroutines

    A verification development for the notebook
    [python-async-def-is-a-magic-footgun.ipynb].

    The notebook is Python code written against [asyncio].  The bodies
    of its functions and coroutines are embedded as resumption trees: a
    node is a primitive call into the runtime ([Do]), a suspension point
    ([Yield], what a coroutine hands to whoever drives it), the creation
    of a task ([CreateTask]), a [return] or a [raise].  What
    [coro_obj.send(None)] and [coro_obj.throw(exc)] do is the interpreter
    [run].  The runtime is a function on an explicit [world]: virtual
    clock, printed output, futures, tasks, ready queue, timers and the
    notebook's global [write_lock].

    The parts of [asyncio] that the notebook calls ([Future], [Lock],
    [create_task], [call_later], the loop) follow the library: calling an
    [async def] function only makes a coroutine object, a task takes its
    first step when the loop runs, the loop sleeps until the next timer
    when nothing is ready.  The transcripts that the notebook shows for
    its examples are reproduced by the model, see [end_to_end_elapsed],
    [example1_transcript] and [example5_transcript].

    The module [Core] holds the Future and the Lock of the written
    specification, which the notebook does not implement itself. *)

From Stdlib Require Import ZArith List Bool Lia.
From stdpp Require Import base list.
Import ListNotations.
Local Open Scope Z_scope.

(** ** Values, exceptions and printed messages *)

(** The Python values that futures and coroutines of the notebook carry. *)
Inductive value : Type :=
| VNone
| VBool (b : bool)
| VInt (z : Z).

(** The exceptions that can be raised.  [StopIteration] is not one of
    them: it is how [send] reports a [return], see [outcome]. *)
Inductive exn : Type :=
| InvalidStateError            (* Future: result is not ready / already set *)
| RuntimeError_not_acquired    (* 'Lock is not acquired.' *)
| RuntimeError_await_not_used  (* "await wasn't used with future" *)
| RuntimeError_reuse           (* 'cannot reuse already awaited coroutine' *)
| TypeError                    (* [current - logstart] with [logstart = None] *)
| ValueError                   (* [time.sleep] of a negative duration *)
| UserError (n : nat).         (* any exception of the wrapped computation *)

(** The lines the notebook prints, without the elapsed time that [log]
    puts in front:
    - [Starting], [Done], [AwaitingLastWrite]: the examples' own lines;
    - [CpuStart i], [CpuDone i]: "[Xi] > Starting 10s CPU work i" and
      "[Xi] < Done with 10s CPU work i";
    - [TellOS i], [Completed i]: "[Oi] >> Tell OS to write output i" and
      "[Oi] << OS writing completed i";
    - [TellOSAwaitable i]: "[Oi] << Tell OS to write output i", as
      [write_output_awaitable] prints it;
    - [OSStarted i], [OSDone i]: "[Wi] >>> OS started writing i" and
      "[Wi] <<< OS done writing i". *)
Inductive msg : Type :=
| Starting
| Done
| AwaitingLastWrite
| CpuStart (i : nat)
| CpuDone (i : nat)
| TellOS (i : nat)
| TellOSAwaitable (i : nat)
| Completed (i : nat)
| OSStarted (i : nat)
| OSDone (i : nat).

#[global] Instance msg_eq_dec : EqDecision msg.
Proof. solve_decision. Defined.

(** ** Primitive calls into the runtime *)

(** The calls a body makes that neither suspend it nor hand it a
    coroutine; the index is the type of what the call returns. *)
Inductive op : Type -> Type :=
| Log (start : bool) (m : msg) : op unit      (* log(m, start=start) *)
| TimeSleep (d : Z) : op unit                 (* time.sleep(d) *)
| NewFuture : op nat                          (* asyncio.Future() *)
| SetResult (f : nat) (v : value) : op unit   (* f.set_result(v) *)
| SetException (f : nat) (e : exn) : op unit  (* f.set_exception(e) *)
| IsDone (f : nat) : op bool                  (* f.done() *)
| Result (f : nat) : op value                 (* f.result() *)
| CallLater (d : Z) (f : nat) (v : value) : op unit
                              (* loop.call_later(d, f.set_result, v) *)
| Locked : op bool                            (* write_lock._locked *)
| SetLocked (b : bool) : op unit              (* write_lock._locked = b *)
| Waiters : op (list nat)                     (* write_lock._waiters *)
| SetWaiters (l : list nat) : op unit.        (* write_lock._waiters = l *)

(** ** Coroutine bodies *)

(** A body that eventually returns an [A].  The continuation of [Do]
    receives what the call returned or the exception it raised; the
    continuation of [Yield] receives [None] when the body is resumed by
    [send(None)] and [Some e] when [e] is thrown in at the suspension
    point by [throw(e)].  What is yielded is always a future, named by
    its id. *)
Inductive body (A : Type) : Type :=
| Ret (v : A)
| Raise (e : exn)
| Do {X : Type} (o : op X) (k : exn + X -> body A)
| Yield (f : nat) (k : option exn -> body A)
| CreateTask (c : body value) (k : nat -> body A).

Arguments Ret {A} v.
Arguments Raise {A} e.
Arguments Do {A X} o k.
Arguments Yield {A} f k.
Arguments CreateTask {A} c k.

(** Sequencing: run [c], then [k] on what it returned; an exception of
    [c] skips [k]. *)
Fixpoint bind {A B : Type} (c : body A) (k : A -> body B) : body B :=
  match c with
  | Ret v => k v
  | Raise e => Raise e
  | Do o k' => Do o (fun r => bind (k' r) k)
  | Yield f k' => Yield f (fun r => bind (k' r) k)
  | CreateTask c' k' => CreateTask c' (fun t => bind (k' t) k)
  end.

Declare Scope body_scope.
Delimit Scope body_scope with body.
Notation "x <- c ;; k" := (bind c (fun x => k))
  (at level 100, c at next level, right associativity) : body_scope.
Notation "c ;; k" := (bind c (fun _ => k))
  (at level 100, right associativity) : body_scope.
Local Open Scope body_scope.

(** A primitive call as a statement: its exception, if any, is raised. *)
Definition call {X : Type} (o : op X) : body X :=
  Do o (fun r => match r with inl e => Raise e | inr x => Ret x end).

(** [try: c finally: fin]. *)
Fixpoint try_finally {A : Type} (c : body A) (fin : body unit) : body A :=
  match c with
  | Ret v => fin ;; Ret v
  | Raise e => fin ;; Raise e
  | Do o k => Do o (fun r => try_finally (k r) fin)
  | Yield f k => Yield f (fun r => try_finally (k r) fin)
  | CreateTask c k => CreateTask c (fun t => try_finally (k t) fin)
  end.

(** [try: c except <handles>: handler]: [handler e] is [None] when the
    [except] clause does not match [e]. *)
Fixpoint try_except {A : Type} (c : body A)
    (handler : exn -> option (body A)) : body A :=
  match c with
  | Ret v => Ret v
  | Raise e => match handler e with Some h => h | None => Raise e end
  | Do o k => Do o (fun r => try_except (k r) handler)
  | Yield f k => Yield f (fun r => try_except (k r) handler)
  | CreateTask c k => CreateTask c (fun t => try_except (k t) handler)
  end.

(** ** The world *)

(** What the event loop can be asked to call: the first step of a task,
    the wake-up of a task by the future it waits on, and
    [f.set_result(v)] as registered by [call_later]. *)
Inductive handle : Type :=
| TaskStep (t : nat)
| TaskWakeup (t : nat) (f : nat)
| FutSetResult (f : nat) (v : value).

(** An [asyncio.Future]: pending ([None]) or done with an exception or a
    result; the callbacks to schedule when it becomes done. *)
Record future : Type := mkFuture {
  fut_state : option (exn + value);
  fut_callbacks : list handle
}.

(** A coroutine object is created by calling an [async def] function,
    which runs none of its body; it is then suspended at a [Yield] or
    finished. *)
Inductive coroutine_object : Type :=
| Created (c : body value)
| Suspended (k : option exn -> body value)
| Closed.

Record world : Type := mkWorld {
  now : Z;                                 (* time.time(), loop.time() *)
  logstart : option Z;                     (* the global [logstart] *)
  out : list (Z * msg);                    (* printed: elapsed time, line *)
  futures : list future;                   (* a future's id is its index *)
  tasks : list (nat * coroutine_object);   (* the coroutine of each task *)
  ready : list handle;                     (* loop._ready *)
  scheduled : list (Z * handle);           (* loop._scheduled, by deadline *)
  locked : bool;                           (* write_lock._locked *)
  waiters : list nat;                      (* write_lock._waiters *)
  iterations : nat                         (* loop iterations run so far *)
}.

Definition set_now (x : Z) (w : world) : world :=
  mkWorld x (logstart w) (out w) (futures w) (tasks w) (ready w)
          (scheduled w) (locked w) (waiters w) (iterations w).
Definition set_logstart (x : option Z) (w : world) : world :=
  mkWorld (now w) x (out w) (futures w) (tasks w) (ready w)
          (scheduled w) (locked w) (waiters w) (iterations w).
Definition set_out (x : list (Z * msg)) (w : world) : world :=
  mkWorld (now w) (logstart w) x (futures w) (tasks w) (ready w)
          (scheduled w) (locked w) (waiters w) (iterations w).
Definition set_futures (x : list future) (w : world) : world :=
  mkWorld (now w) (logstart w) (out w) x (tasks w) (ready w)
          (scheduled w) (locked w) (waiters w) (iterations w).
Definition set_tasks (x : list (nat * coroutine_object)) (w : world) : world :=
  mkWorld (now w) (logstart w) (out w) (futures w) x (ready w)
          (scheduled w) (locked w) (waiters w) (iterations w).
Definition set_ready (x : list handle) (w : world) : world :=
  mkWorld (now w) (logstart w) (out w) (futures w) (tasks w) x
          (scheduled w) (locked w) (waiters w) (iterations w).
Definition set_scheduled (x : list (Z * handle)) (w : world) : world :=
  mkWorld (now w) (logstart w) (out w) (futures w) (tasks w) (ready w)
          x (locked w) (waiters w) (iterations w).
Definition set_locked (x : bool) (w : world) : world :=
  mkWorld (now w) (logstart w) (out w) (futures w) (tasks w) (ready w)
          (scheduled w) x (waiters w) (iterations w).
Definition set_waiters (x : list nat) (w : world) : world :=
  mkWorld (now w) (logstart w) (out w) (futures w) (tasks w) (ready w)
          (scheduled w) (locked w) x (iterations w).
Definition set_iterations (x : nat) (w : world) : world :=
  mkWorld (now w) (logstart w) (out w) (futures w) (tasks w) (ready w)
          (scheduled w) (locked w) (waiters w) x.

(** A fresh interpreter: clock at [0], nothing printed, no future, no
    task, [write_lock] free. *)
Definition initial : world :=
  mkWorld 0 None [] [] [] [] [] false [] 0.

(** ** The runtime: futures, timers, [log], [time.sleep] *)

(** [loop.call_soon(h)]. *)
Definition call_soon (h : handle) (w : world) : world :=
  set_ready (ready w ++ [h]) w.

(** The timer queue is ordered by deadline, ties in creation order. *)
Fixpoint insert_timer (when : Z) (h : handle) (l : list (Z * handle))
  : list (Z * handle) :=
  match l with
  | [] => [(when, h)]
  | (when', h') :: l' =>
      if when' <=? when then (when', h') :: insert_timer when h l'
      else (when, h) :: l
  end.

(** [f.set_result(v)] and [f.set_exception(e)]: a future that is done
    raises [InvalidStateError] and keeps its state; a pending one becomes
    done and its callbacks go to the ready queue, in registration order.
    An id that names no future gets the same error; a program only holds
    the ids that [NewFuture] and [create_task] gave it. *)
Definition settle (f : nat) (r : exn + value) (w : world)
  : (exn + unit) * world :=
  match futures w !! f with
  | Some fu =>
      match fut_state fu with
      | None =>
          (inr tt,
           set_ready (ready w ++ fut_callbacks fu)
             (set_futures (<[f := mkFuture (Some r) []]> (futures w)) w))
      | Some _ => (inl InvalidStateError, w)
      end
  | None => (inl InvalidStateError, w)
  end.

(** [f.add_done_callback(h)]: scheduled at once when [f] is done. *)
Definition add_done_callback (f : nat) (h : handle) (w : world) : world :=
  match futures w !! f with
  | Some fu =>
      match fut_state fu with
      | None =>
          set_futures
            (<[f := mkFuture None (fut_callbacks fu ++ [h])]> (futures w)) w
      | Some _ => call_soon h w
      end
  | None => w
  end.

(** [log]:
    [current = time.time(); if start: logstart = current;
     print(f"{current - logstart:2.2f}", ...)]. *)
Definition log (start : bool) (m : msg) (w : world) : (exn + unit) * world :=
  let current := now w in
  let w1 := if start then set_logstart (Some current) w else w in
  match logstart w1 with
  | Some s => (inr tt, set_out (out w1 ++ [(current - s, m)]) w1)
  | None => (inl TypeError, w1)
  end.

Definition perform {X : Type} (o : op X) (w : world) : (exn + X) * world :=
  match o in op X return (exn + X) * world with
  | Log start m => log start m w
  | TimeSleep d =>
      if d <? 0 then (inl ValueError, w) else (inr tt, set_now (now w + d) w)
  | NewFuture =>
      (inr (length (futures w)),
       set_futures (futures w ++ [mkFuture None []]) w)
  | SetResult f v => settle f (inr v) w
  | SetException f e => settle f (inl e) w
  | IsDone f =>
      match futures w !! f with
      | Some fu => (inr (bool_decide (is_Some (fut_state fu))), w)
      | None => (inl InvalidStateError, w)
      end
  | Result f =>
      match futures w !! f with
      | Some fu =>
          match fut_state fu with
          | Some (inr v) => (inr v, w)
          | Some (inl e) => (inl e, w)
          | None => (inl InvalidStateError, w)
          end
      | None => (inl InvalidStateError, w)
      end
  | CallLater d f v =>
      (inr tt,
       set_scheduled
         (insert_timer (now w + d) (FutSetResult f v) (scheduled w)) w)
  | Locked => (inr (locked w), w)
  | SetLocked b => (inr tt, set_locked b w)
  | Waiters => (inr (waiters w), w)
  | SetWaiters l => (inr tt, set_waiters l w)
  end.

(** [asyncio.create_task(c)]: the task is a new pending future; its
    first step is handed to [call_soon].  None of [c] runs here. *)
Definition create_task (c : body value) (w : world) : nat * world :=
  let t := length (futures w) in
  (t,
   call_soon (TaskStep t)
     (set_tasks (tasks w ++ [(t, Created c)])
        (set_futures (futures w ++ [mkFuture None []]) w))).

(** ** Running a body: [send] and [throw] *)

(** How a step of a body ends: suspended on [f], to be resumed through
    [k]; returned ([StopIteration(v)]); or raised. *)
Inductive outcome (A : Type) : Type :=
| Yielded (f : nat) (k : option exn -> body A)
| Stop (v : A)
| Exc (e : exn).

Arguments Yielded {A} f k.
Arguments Stop {A} v.
Arguments Exc {A} e.

(** Run a body up to its next suspension point, its return or its
    exception. *)
Fixpoint run {A : Type} (c : body A) (w : world) : outcome A * world :=
  match c with
  | Ret v => (Stop v, w)
  | Raise e => (Exc e, w)
  | Do o k => let (r, w') := perform o w in run (k r) w'
  | Yield f k => (Yielded f k, w)
  | CreateTask c' k => let (t, w') := create_task c' w in run (k t) w'
  end.

(** [obj.send(None)] is [resume obj None] and [obj.throw(e)] is
    [resume obj (Some e)]. *)
Definition resume (obj : coroutine_object) (thrown : option exn) (w : world)
  : outcome value * world :=
  match obj with
  | Created c =>
      match thrown with None => run c w | Some e => (Exc e, w) end
  | Suspended k => run (k thrown) w
  | Closed =>
      match thrown with
      | None => (Exc RuntimeError_reuse, w)
      | Some e => (Exc e, w)
      end
  end.

(** ** Tasks and the event loop *)

Fixpoint task_coro (t : nat) (l : list (nat * coroutine_object))
  : option coroutine_object :=
  match l with
  | [] => None
  | (t', obj) :: l' => if Nat.eqb t t' then Some obj else task_coro t l'
  end.

Fixpoint store_coro (t : nat) (obj : coroutine_object)
    (l : list (nat * coroutine_object)) : list (nat * coroutine_object) :=
  match l with
  | [] => [(t, obj)]
  | (t', obj') :: l' =>
      if Nat.eqb t t' then (t, obj) :: l' else (t', obj') :: store_coro t obj l'
  end.

(** One step of task [t] ([Task.__step]): resume its coroutine; a return
    or an exception settles the task's own future, a suspension on [f]
    registers the task's wake-up on [f]. *)
Definition task_step (t : nat) (thrown : option exn) (w : world) : world :=
  match task_coro t (tasks w) with
  | None => w
  | Some obj =>
      let (o, w1) := resume obj thrown w in
      match o with
      | Stop v =>
          snd (settle t (inr v) (set_tasks (store_coro t Closed (tasks w1)) w1))
      | Exc e =>
          snd (settle t (inl e) (set_tasks (store_coro t Closed (tasks w1)) w1))
      | Yielded f k =>
          add_done_callback f (TaskWakeup t f)
            (set_tasks (store_coro t (Suspended k) (tasks w1)) w1)
      end
  end.

(** What [Task.__wakeup(f)] resumes the coroutine with: the exception of
    [f] is thrown in, anything else is a plain [send(None)]. *)
Definition wakeup_mode (f : nat) (w : world) : option exn :=
  match futures w !! f with
  | Some (mkFuture (Some (inl e)) _) => Some e
  | _ => None
  end.

Definition run_handle (h : handle) (w : world) : world :=
  match h with
  | TaskStep t => task_step t None w
  | TaskWakeup t f => task_step t (wakeup_mode f w) w
  | FutSetResult f v => snd (settle f (inr v) w)
  end.

(** Run the first [n] callbacks of the ready queue; those they add are
    left for the next iteration. *)
Fixpoint run_ready (n : nat) (w : world) : world :=
  match n with
  | O => w
  | S n' =>
      match ready w with
      | [] => w
      | h :: rest => run_ready n' (run_handle h (set_ready rest w))
      end
  end.

(** The timers that are due at [t], and the others. *)
Fixpoint split_due (t : Z) (l : list (Z * handle))
  : list handle * list (Z * handle) :=
  match l with
  | [] => ([], [])
  | (when, h) :: l' =>
      if when <=? t then
        let (due, later) := split_due t l' in (h :: due, later)
      else ([], l)
  end.

(** One iteration of the loop ([_run_once]): with nothing ready, sleep
    until the first deadline; move the due timers to the ready queue; run
    what is ready.  [None]: nothing is ready and no timer is pending, the
    loop would wait forever. *)
Definition run_once (w : world) : option world :=
  match ready w, scheduled w with
  | [], [] => None
  | _, _ =>
      let t :=
        match ready w, scheduled w with
        | [], (when, _) :: _ => Z.max (now w) when
        | _, _ => now w
        end in
      let (due, later) := split_due t (scheduled w) in
      let w1 :=
        set_iterations (S (iterations w))
          (set_ready (ready w ++ due) (set_scheduled later (set_now t w))) in
      Some (run_ready (length (ready w1)) w1)
  end.

(** Iterate the loop until future [t] is done. *)
Fixpoint run_until_done (fuel : nat) (t : nat) (w : world)
  : option (exn + value) * world :=
  match futures w !! t with
  | Some (mkFuture (Some r) _) => (Some r, w)
  | _ =>
      match fuel with
      | O => (None, w)
      | S fuel' =>
          match run_once w with
          | Some w' => run_until_done fuel' t w'
          | None => (None, w)
          end
      end
  end.

(** [await main] at the top level of the notebook: [main] becomes a task
    and the loop runs until it is done. *)
Definition run_until_complete (fuel : nat) (main : body value) (w : world)
  : option (exn + value) * world :=
  let (t, w') := create_task main w in run_until_done fuel t w'.

(** ** [asyncio.Future.__await__] and [asyncio.Lock] *)

(** [Future.__await__]:
    [if not self.done(): yield self
     if not self.done(): raise RuntimeError("await wasn't used with future")
     return self.result()].
    The flag [_asyncio_future_blocking], by which a task tells a future
    that was awaited from one that was yielded, is left out: every
    [Yield] here comes from an [await]. *)
Definition Future__await__ (f : nat) : body value :=
  d <- call (IsDone f) ;;
  if d : bool then call (Result f)
  else
    Yield f (fun thrown =>
      match thrown with
      | Some e => Raise e
      | None =>
          d' <- call (IsDone f) ;;
          if d' : bool then call (Result f)
          else Raise RuntimeError_await_not_used
      end).

(** [Lock._wake_up_first]: the first waiter, if it is not done, gets its
    result. *)
Definition Lock__wake_up_first : body unit :=
  ws <- call Waiters ;;
  match ws with
  | [] => Ret tt
  | fut :: _ =>
      d <- call (IsDone fut) ;;
      if d : bool then Ret tt else call (SetResult fut (VBool true))
  end.

(** Remove the first occurrence, as [deque.remove]. *)
Fixpoint remove_first (x : nat) (l : list nat) : list nat :=
  match l with
  | [] => []
  | y :: l' => if Nat.eqb x y then l' else y :: remove_first x l'
  end.

(** [Lock.acquire] is declared [async def]: [write_lock.acquire()] only
    builds this coroutine; the lock is taken, or the caller queued, when
    the coroutine is driven.  No future is ever cancelled here, so
    [all(w.cancelled() for w in self._waiters)] holds exactly when there
    is no waiter. *)
Definition Lock_acquire : body value :=
  l <- call Locked ;;
  ws <- call Waiters ;;
  if negb l && bool_decide (ws = []) then
    call (SetLocked true) ;; Ret (VBool true)
  else
    fut <- call NewFuture ;;
    ws' <- call Waiters ;;
    call (SetWaiters (ws' ++ [fut])) ;;
    try_finally (Future__await__ fut ;; Ret tt)
      (ws'' <- call Waiters ;; call (SetWaiters (remove_first fut ws''))) ;;
    call (SetLocked true) ;;
    Ret (VBool true).

(** [Lock.release]. *)
Definition Lock_release : body unit :=
  l <- call Locked ;;
  if l : bool then call (SetLocked false) ;; Lock__wake_up_first
  else Raise RuntimeError_not_acquired.

(** ** The notebook: simulated I/O and CPU work *)

Definition WORK_TIME : Z := 2.
Definition WRITE_TIME : Z := 1.

(** [async_sleep(t)]:
    [future = asyncio.Future()
     asyncio.get_running_loop().call_later(t, future.set_result, None)
     return future]. *)
Definition async_sleep (t : Z) : body nat :=
  future <- call NewFuture ;;
  call (CallLater t future VNone) ;;
  Ret future.

(** The inner coroutine [_wait_for_write(sleep_awaitable)] of
    [os_async_write] without lock:
    [await sleep_awaitable
     log(f"[W{i}] <<< OS done writing {i}")]. *)
Definition _wait_for_write (i : nat) (sleep_awaitable : nat) : body value :=
  Future__await__ sleep_awaitable ;;
  call (Log false (OSDone i)) ;;
  Ret VNone.

(** The inner coroutine [_wait_for_write(lock_awaitable)] of
    [os_async_write] with lock:
    [await lock_awaitable
     try:
         await async_sleep(WRITE_TIME)
     finally:
         if lock:
             write_lock.release()]. *)
Definition _wait_for_write_with_lock (lock : bool) (lock_awaitable : body value)
  : body value :=
  lock_awaitable ;;
  try_finally (s <- async_sleep WRITE_TIME ;; Future__await__ s ;; Ret tt)
    (if lock then Lock_release else Ret tt) ;;
  Ret VNone.

(** [os_async_write(i, lock)]: an ordinary function; it prints, starts
    the timer (without lock) or calls [write_lock.acquire()] (with lock),
    and returns the coroutine object of its inner [_wait_for_write]. *)
Definition os_async_write (i : nat) (lock : bool) : body (body value) :=
  call (Log false (OSStarted i)) ;;
  if negb lock then
    sleep_awaitable <- async_sleep WRITE_TIME ;;
    Ret (_wait_for_write i sleep_awaitable)
  else
    let lock_awaitable := Lock_acquire in
    Ret (_wait_for_write_with_lock lock lock_awaitable).

(** [async def write_output_async(i, lock=False)]. *)
Definition write_output_async (i : nat) (lock : bool) : body value :=
  call (Log false (TellOS i)) ;;
  w <- os_async_write i lock ;;
  w ;;
  call (Log false (Completed i)) ;;
  Ret VNone.

(** [do_cpu_work(i)]; [gc.collect()] changes nothing that is modelled. *)
Definition do_cpu_work (i : nat) : body unit :=
  call (Log false (CpuStart i)) ;;
  call (TimeSleep WORK_TIME) ;;
  call (Log false (CpuDone i)).

(** [write_output_awaitable(i, lock=False)], the function fixed by hand:
    it is not [async], starts the write when called and returns the
    coroutine object of its inner [_wait_for_inner], which awaits the
    awaitable of the OS and prints that the write has completed. *)
Definition _wait_for_inner (i : nat) (awaitable : body value) : body value :=
  awaitable ;;
  call (Log false (Completed i)) ;;
  Ret VNone.

Definition write_output_awaitable (i : nat) (lock : bool)
  : body (body value) :=
  call (Log false (TellOSAwaitable i)) ;;
  awaitable <- os_async_write i lock ;;
  Ret (_wait_for_inner i awaitable).

(** ** The notebook: [js_like_await] *)

(** [r = obj.send(None)] written inside a body: the body of the object
    is run in place up to its next suspension point, and [cont] goes on
    with how it stopped. *)
Fixpoint splice {A B : Type} (c : body A) (cont : outcome A -> body B)
  : body B :=
  match c with
  | Ret v => cont (Stop v)
  | Raise e => cont (Exc e)
  | Do o k => Do o (fun r => splice (k r) cont)
  | Yield f k => cont (Yielded f k)
  | CreateTask c' k => CreateTask c' (fun t => splice (k t) cont)
  end.

Definition send {B : Type} (obj : coroutine_object)
    (cont : outcome value -> body B) : body B :=
  match obj with
  | Created c => splice c cont
  | Suspended k => splice (k None) cont
  | Closed => cont (Exc RuntimeError_reuse)
  end.

(** [JSLikeCoroutine(awaitable, coro_obj)].  Nothing but the handle
    refers to the coroutine object, so the handle carries its state. *)
Record JSLikeCoroutine : Type := mkJSLikeCoroutine {
  awaitable : nat;
  coro_obj : coroutine_object
}.

(** The loop of [JSLikeCoroutine.__await__], inside its [try]:
    [while True: yield self.coro_obj.send(None)], left through
    [except StopIteration as e: return e.value].  [c] is what the next
    [send] runs.  An exception thrown in at the [yield] is not passed to
    [coro_obj]: it leaves [__await__]. *)
Fixpoint JSLike_loop (c : body value) : body value :=
  match c with
  | Ret v => Ret v
  | Raise e => Raise e
  | Do o k => Do o (fun r => JSLike_loop (k r))
  | Yield f k =>
      Yield f (fun thrown =>
        match thrown with
        | Some e => Raise e
        | None => JSLike_loop (k None)
        end)
  | CreateTask c' k => CreateTask c' (fun t => JSLike_loop (k t))
  end.

(** [JSLikeCoroutine.__await__]:
    [try:
         yield self.awaitable
         while True:
             yield self.coro_obj.send(None)
     except StopIteration as e:
         return e.value]. *)
Definition JSLikeCoroutine__await__ (self : JSLikeCoroutine) : body value :=
  Yield (awaitable self) (fun thrown =>
    match thrown with
    | Some e => Raise e
    | None =>
        match coro_obj self with
        | Created c => JSLike_loop c
        | Suspended k => JSLike_loop (k None)
        | Closed => Raise RuntimeError_reuse
        end
    end).

(** What the notebook awaits: a coroutine object that has not started, a
    future (a task is one), or a [JSLikeCoroutine]. *)
Inductive awaitable_object : Type :=
| ACoroutine (c : body value)
| AFuture (f : nat)
| AJSLike (j : JSLikeCoroutine).

(** [await a]. *)
Definition await (a : awaitable_object) : body value :=
  match a with
  | ACoroutine c => c
  | AFuture f => Future__await__ f
  | AJSLike j => JSLikeCoroutine__await__ j
  end.

(** [coroutine_with_js_like_await], with [args] for the arguments:
    [coro_obj = coro(args)
     try:
         future = coro_obj.send(None)
         return JSLikeCoroutine(future, coro_obj)
     except StopIteration as e:
         result = asyncio.Future()
         result.set_result(e.value)
         return result]. *)
Definition coroutine_with_js_like_await {Args : Type}
    (coro : Args -> body value) (args : Args) : body awaitable_object :=
  let coro_obj := Created (coro args) in
  send coro_obj (fun r =>
    match r with
    | Yielded future k =>
        Ret (AJSLike (mkJSLikeCoroutine future (Suspended k)))
    | Stop v =>
        result <- call NewFuture ;;
        call (SetResult result v) ;;
        Ret (AFuture result)
    | Exc e => Raise e
    end).

Definition js_like_await {Args : Type} (coro : Args -> body value)
  : Args -> body awaitable_object :=
  coroutine_with_js_like_await coro.

(** ** The notebook: the examples *)

(** [for i in l: state = step(i, state)]. *)
Fixpoint for_each {S : Type} (l : list nat) (s : S)
    (step : nat -> S -> body S) : body S :=
  match l with
  | [] => Ret s
  | i :: l' => s' <- step i s ;; for_each l' s' step
  end.

(** [if lastWrite: await lastWrite]. *)
Definition await_if (lastWrite : option awaitable_object) : body unit :=
  match lastWrite with
  | Some a => await a ;; Ret tt
  | None => Ret tt
  end.

(** The final [await lastWrite]; awaiting [None] is a [TypeError]. *)
Definition await_last (lastWrite : option awaitable_object) : body unit :=
  match lastWrite with
  | Some a => await a ;; Ret tt
  | None => Raise TypeError
  end.

(** The examples pass no [lock] to [write_output_async], which is
    [lock = false]; the argument [lock] also gives the same loops for a
    write that needs the single-writer lock. *)

Definition example1_await_immediately (lock : bool) : body value :=
  call (Log true Starting) ;;
  for_each (seq 0 3) tt (fun i _ =>
    do_cpu_work i ;;
    write_output_async i lock ;;
    Ret tt) ;;
  call (Log false Done) ;;
  Ret VNone.

Definition example2_await_before_next_write (lock : bool) : body value :=
  call (Log true Starting) ;;
  lastWrite <- for_each (seq 0 3) None (fun i lastWrite =>
    do_cpu_work i ;;
    await_if lastWrite ;;
    Ret (Some (ACoroutine (write_output_async i lock)))) ;;
  await_last lastWrite ;;
  call (Log false Done) ;;
  Ret VNone.

Definition example6_await_before_next_write_with_task (lock : bool)
  : body value :=
  call (Log true Starting) ;;
  lastWrite <- for_each (seq 0 3) None (fun i lastWrite =>
    do_cpu_work i ;;
    await_if lastWrite ;;
    CreateTask (write_output_async i lock) (fun t => Ret (Some (AFuture t)))) ;;
  await_last lastWrite ;;
  call (Log false Done) ;;
  Ret VNone.

Definition example2_await_before_next_write_fixed_function (lock : bool)
  : body value :=
  call (Log true Starting) ;;
  lastWrite <- for_each (seq 0 3) None (fun i lastWrite =>
    do_cpu_work i ;;
    await_if lastWrite ;;
    a <- write_output_awaitable i lock ;;
    Ret (Some (ACoroutine a))) ;;
  call (Log false AwaitingLastWrite) ;;
  await_last lastWrite ;;
  call (Log false Done) ;;
  Ret VNone.

Definition fixed_write_output_async : nat * bool -> body awaitable_object :=
  js_like_await (fun args => write_output_async (fst args) (snd args)).

Definition example10_fixed_write_with_gather (lock : bool) : body value :=
  call (Log true Starting) ;;
  lastWrite <- for_each (seq 0 3) None (fun i lastWrite =>
    do_cpu_work i ;;
    await_if lastWrite ;;
    a <- fixed_write_output_async (i, lock) ;;
    Ret (Some a)) ;;
  call (Log false AwaitingLastWrite) ;;
  await_last lastWrite ;;
  call (Log false Done) ;;
  Ret VNone.

(** What a run of [main] printed, and the time on the clock at the end. *)
Definition transcript (main : body value) : list (Z * msg) :=
  out (snd (run_until_complete 100 main initial)).

Definition elapsed (main : body value) : option Z :=
  match run_until_complete 100 main initial with
  | (Some (inr _), w) => Some (now w)
  | _ => None
  end.

(** ** Driving a body to completion *)

(** A driver in the abstract: it resumes the body each time it suspends.
    Between the suspension and the resumption the rest of the program
    runs, which is [env i] at the [i]-th suspension; [wake f w] is what
    the body suspended on [f] is resumed with.  [None] as a result: the
    fuel ran out before the body finished. *)
Fixpoint drive {A : Type} (wake : nat -> world -> option exn)
    (env : nat -> world -> world) (fuel : nat) (i : nat)
    (c : body A) (w : world) : option (exn + A) * world :=
  match run c w with
  | (Stop v, w') => (Some (inr v), w')
  | (Exc e, w') => (Some (inl e), w')
  | (Yielded f k, w') =>
      match fuel with
      | O => (None, w')
      | S fuel' =>
          let w'' := env i w' in
          drive wake env fuel' (S i) (k (wake f w'')) w''
      end
  end.

(** A driver that only ever resumes with [send(None)]. *)
Definition send_only (f : nat) (w : world) : option exn := None.

(** The world after [result = asyncio.Future(); result.set_result(v)]. *)
Definition pre_resolved (v : value) (w : world) : world :=
  set_futures (futures w ++ [mkFuture (Some (inr v)) []]) w.

(** ** Scenarios *)

(** A timed wait is created, [d] units of work follow, then the wait is
    awaited. *)
Definition sleep_then_work (t d : Z) : body value :=
  call (Log true Starting) ;;
  future <- async_sleep t ;;
  call (TimeSleep d) ;;
  Future__await__ future ;;
  call (Log false Done) ;;
  Ret VNone.

(** Example 10 with the two statements of the loop exchanged: the
    previous handle is awaited before the CPU work of the iteration, not
    after it. *)
Definition eager_await_before_work (lock : bool) : body value :=
  call (Log true Starting) ;;
  lastWrite <- for_each (seq 0 3) None (fun i lastWrite =>
    await_if lastWrite ;;
    do_cpu_work i ;;
    a <- fixed_write_output_async (i, lock) ;;
    Ret (Some a)) ;;
  call (Log false AwaitingLastWrite) ;;
  await_last lastWrite ;;
  call (Log false Done) ;;
  Ret VNone.

(** The first time a line was printed. *)
Fixpoint time_of (m : msg) (tr : list (Z * msg)) : option Z :=
  match tr with
  | [] => None
  | (t, m') :: tr' =>
      if bool_decide (m = m') then Some t else time_of m tr'
  end.

(** [w2] shows everything [w1] shows, and possibly futures created
    since. *)
Definition extends (w1 w2 : world) : Prop :=
  now w2 = now w1 /\ logstart w2 = logstart w1 /\ out w2 = out w1 /\
  (exists l, futures w2 = futures w1 ++ l) /\
  tasks w2 = tasks w1 /\ ready w2 = ready w1 /\
  scheduled w2 = scheduled w1 /\
  locked w2 = locked w1 /\ waiters w2 = waiters w1 /\
  iterations w2 = iterations w1.

(** A task that fails, and a computation that awaits it and handles the
    failure:
    [async def failing(): raise E]
    [async def comp(t):
         try: await t
         except E: return 42]. *)
Definition failing : body value := Raise (UserError 1).

Definition comp (t : nat) : body value :=
  try_except (Future__await__ t)
    (fun e =>
       match e with
       | UserError 1 => Some (Ret (VInt 42))
       | _ => None
       end).

(** [t = asyncio.create_task(failing()); return await comp(t)]. *)
Definition main_lazy : body value :=
  CreateTask failing (fun t => comp t).

(** [t = asyncio.create_task(failing());
     return await js_like_await(comp)(t)]. *)
Definition main_eager : body value :=
  CreateTask failing (fun t => h <- js_like_await comp t ;; await h).

(** What "a drive step at submission" would mean for [submit] on [c] in
    [w]: when [create_task] returns, the coroutine of the new task is
    where one [send] takes it, and what that [send] prints is printed. *)
Definition submit_steps_once (c : body value) (w : world) : Prop :=
  let (t, w1) := create_task c w in
  let (o, w2) := run c w in
  task_coro t (tasks w1)
    = Some (match o with Yielded _ k => Suspended k | _ => Closed end) /\
  out w1 = out w2.

(** Two locked writes are started, write 0 first; they are awaited in
    the other order. *)
Definition locked_writes_reversed : body value :=
  call (Log true Starting) ;;
  a0 <- write_output_awaitable 0 true ;;
  a1 <- write_output_awaitable 1 true ;;
  a1 ;;
  a0 ;;
  call (Log false Done) ;;
  Ret VNone.

(** [example5_taskgroup_create_task_outside_loop_with_lock]; leaving the
    [async with asyncio.TaskGroup()] block waits for every task of the
    group, here by awaiting them in the order of their creation. *)
Definition example5_taskgroup_create_task_outside_loop_with_lock
  : body value :=
  call (Log true Starting) ;;
  ts <- for_each (seq 0 3) [] (fun i ts =>
    do_cpu_work i ;;
    CreateTask (write_output_async i true) (fun t => Ret (ts ++ [t]))) ;;
  for_each ts tt (fun t _ => Future__await__ t ;; Ret tt) ;;
  call (Log false Done) ;;
  Ret VNone.

(** In a transcript, the OS write [i] occupies the [WRITE_TIME] units
    after "OS started writing i" and the CPU work [j] the time between
    its two lines; they overlap when they share more than an instant. *)
Definition write_overlaps_work (tr : list (Z * msg)) (i j : nat) : bool :=
  match time_of (OSStarted i) tr,
        time_of (CpuStart j) tr, time_of (CpuDone j) tr with
  | Some s, Some a, Some b => (a <? s + WRITE_TIME) && (s <? b)
  | _, _, _ => false
  end.

(** The transcript that the notebook shows for examples 2 and 6, and the
    one it shows for example 10, with the times rounded to the unit. *)
Definition lazy_transcript : list (Z * msg) :=
  [(0, Starting); (0, CpuStart 0); (2, CpuDone 0);
   (2, CpuStart 1); (4, CpuDone 1);
   (4, TellOS 0); (4, OSStarted 0); (5, OSDone 0); (5, Completed 0);
   (5, CpuStart 2); (7, CpuDone 2);
   (7, TellOS 1); (7, OSStarted 1); (8, OSDone 1); (8, Completed 1);
   (8, TellOS 2); (8, OSStarted 2); (9, OSDone 2); (9, Completed 2);
   (9, Done)].

Definition eager_transcript : list (Z * msg) :=
  [(0, Starting); (0, CpuStart 0); (2, CpuDone 0);
   (2, TellOS 0); (2, OSStarted 0);
   (2, CpuStart 1); (4, CpuDone 1); (4, OSDone 0); (4, Completed 0);
   (4, TellOS 1); (4, OSStarted 1);
   (4, CpuStart 2); (6, CpuDone 2); (6, OSDone 1); (6, Completed 1);
   (6, TellOS 2); (6, OSStarted 2); (6, AwaitingLastWrite);
   (7, OSDone 2); (7, Completed 2); (7, Done)].

(** ** The core of the specification: Future and Lock *)

Module Core.

(** The structural errors of the specification. *)
Inductive error : Type :=
| AlreadyResolved
| NotHeld.

(** A continuation is an opaque token for "resume this driver from
    here". *)
Definition continuation : Type := nat.

Section Future.

Context {T E : Type}.

Inductive state : Type :=
| Pending
| Resolved (v : T)
| Failed (e : E).

(** Modelled from the spec: the Future of sections 3 and 4.1, of which
    the repository has no implementation of its own (the notebook uses
    [asyncio.Future]).  A Future is in one of the three states and holds
    the ordered list of the continuations waiting for it. *)
Record Future : Type := mkFuture {
  fstate : state;
  fwaiters : list continuation
}.

(** An entry of the scheduler's ready queue: a continuation and the
    value or error to resume it with. *)
Definition ready_entry : Type := (continuation * (E + T))%type.

Definition is_settled (f : Future) : bool :=
  match fstate f with Pending => false | _ => true end.

Definition settled_as (r : E + T) : state :=
  match r with inr v => Resolved v | inl e => Failed e end.

(** Modelled from the spec: [resolve] and [fail] of section 4.1, which
    the repository does not implement.  "Fails with AlreadyResolved if
    not Pending; transitions to Resolved and enqueues every registered
    waiter's continuation onto the ready queue, in the order they
    registered, passing the value"; [fail] is symmetric.  The result is
    the error, if any, the future and the ready queue afterwards. *)
Definition settle_with (r : E + T) (f : Future) (rq : list ready_entry)
  : option error * Future * list ready_entry :=
  match fstate f with
  | Pending =>
      (None, mkFuture (settled_as r) (fwaiters f),
       rq ++ map (fun k => (k, r)) (fwaiters f))
  | _ => (Some AlreadyResolved, f, rq)
  end.

Definition resolve (v : T) := settle_with (inr v).
Definition fail (e : E) := settle_with (inl e).

(** Modelled from the spec: [register_waiter] of section 4.1, absent
    from the repository.  On a settled future the continuation is
    enqueued at once. *)
Definition register_waiter (k : continuation) (f : Future)
    (rq : list ready_entry) : Future * list ready_entry :=
  match fstate f with
  | Pending => (mkFuture Pending (fwaiters f ++ [k]), rq)
  | Resolved v => (f, rq ++ [(k, inr v)])
  | Failed e => (f, rq ++ [(k, inl e)])
  end.

(** A call of [resolve] or [fail]. *)
Inductive settle_call : Type :=
| CallResolve (v : T)
| CallFail (e : E).

Definition apply_call (c : settle_call) (f : Future) (rq : list ready_entry)
  : option error * Future * list ready_entry :=
  match c with
  | CallResolve v => resolve v f rq
  | CallFail e => fail e f rq
  end.

Definition call_state (c : settle_call) : state :=
  match c with CallResolve v => Resolved v | CallFail e => Failed e end.

(** The calls made on one future over its lifetime, in order, with the
    result of each. *)
Fixpoint apply_calls (cs : list settle_call) (f : Future)
    (rq : list ready_entry)
  : list (option error) * Future * list ready_entry :=
  match cs with
  | [] => ([], f, rq)
  | c :: cs' =>
      let '(r, f', rq') := apply_call c f rq in
      let '(rs, f'', rq'') := apply_calls cs' f' rq' in
      (r :: rs, f'', rq'')
  end.

End Future.

Arguments state : clear implicits.
Arguments Future : clear implicits.
Arguments ready_entry : clear implicits.
Arguments settle_call : clear implicits.

(** Modelled from the spec: the Lock of sections 3 and 4.4, which the
    repository does not implement (the notebook uses [asyncio.Lock]):
    [held] and the ordered sequence of the futures of the waiters.  The
    futures live in a store, a future's name is its index there. *)
Record Lock : Type := mkLock {
  held : bool;
  lwaiters : list nat
}.

Record system : Type := mkSystem {
  lock : Lock;
  store : list (Future unit unit);
  readyq : list (ready_entry unit unit)
}.

(** Modelled from the spec: [acquire] of section 4.4, absent from the
    repository.  "If not held, sets held=true, returns an
    already-resolved Future.  If held, creates a new Future, appends to
    waiters, returns it." *)
Definition acquire (s : system) : nat * system :=
  let fut := length (store s) in
  if held (lock s) then
    (fut, mkSystem (mkLock true (lwaiters (lock s) ++ [fut]))
                   (store s ++ [mkFuture Pending []]) (readyq s))
  else
    (fut, mkSystem (mkLock true (lwaiters (lock s)))
                   (store s ++ [mkFuture (Resolved tt) []]) (readyq s)).

(** Modelled from the spec: [release] of section 4.4, absent from the
    repository.  "Fails with NotHeld if not held; if waiters non-empty,
    pops the oldest, resolves it (grants), keeps held=true; else sets
    held=false."  The grant goes through [resolve].  A waiter that
    names no future of the store, which [acquire] never produces, is
    dropped. *)
Definition release (s : system) : option error * system :=
  if held (lock s) then
    match lwaiters (lock s) with
    | fut :: rest =>
        match store s !! fut with
        | Some f =>
            let '(r, f', rq') := resolve tt f (readyq s) in
            (r, mkSystem (mkLock true rest) (<[fut := f']> (store s)) rq')
        | None => (None, mkSystem (mkLock true rest) (store s) (readyq s))
        end
    | [] => (None, mkSystem (mkLock false []) (store s) (readyq s))
    end
  else (Some NotHeld, s).

(** A caller that finds the lock held: it acquires and, to await the
    future it got, registers its continuation on it. *)
Definition acquire_and_wait (k : continuation) (s : system) : nat * system :=
  let (fut, s1) := acquire s in
  match store s1 !! fut with
  | Some f =>
      let (f', rq') := register_waiter k f (readyq s1) in
      (fut, mkSystem (lock s1) (<[fut := f']> (store s1)) rq')
  | None => (fut, s1)
  end.

(** The callers [ks] acquire, in this order. *)
Fixpoint acquire_all (ks : list continuation) (s : system)
  : list nat * system :=
  match ks with
  | [] => ([], s)
  | k :: ks' =>
      let (fut, s1) := acquire_and_wait k s in
      let (futs, s2) := acquire_all ks' s1 in
      (fut :: futs, s2)
  end.

(** [n] releases in a row. *)
Fixpoint release_n (n : nat) (s : system) : list (option error) * system :=
  match n with
  | O => ([], s)
  | S n' =>
      let (r, s1) := release s in
      let (rs, s2) := release_n n' s1 in
      (r :: rs, s2)
  end.

(** The future of a caller [k] that waits for the lock, and the same
    future once the lock has been granted to [k]. *)
Definition waiting (k : continuation) : Future unit unit :=
  mkFuture Pending [k].

Definition granted (k : continuation) : Future unit unit :=
  mkFuture (Resolved tt) [k].

End Core.

(** ** The loops of the examples over any list of indices *)

(** The examples run their loops over [range(3)].  Here are the same
    loops over a list [l] of indices; each example is its loop at
    [seq 0 3], see [example1_is_loop] and the lemmas after it. *)

(** Example 1. *)
Definition await_immediately_step (lock : bool) (i : nat) (_ : unit)
  : body unit :=
  do_cpu_work i ;;
  write_output_async i lock ;;
  Ret tt.

Definition await_immediately_loop (l : list nat) (lock : bool) : body value :=
  call (Log true Starting) ;;
  for_each l tt (await_immediately_step lock) ;;
  call (Log false Done) ;;
  Ret VNone.

(** Example 2. *)
Definition await_before_next_write_step (lock : bool) (i : nat)
    (lastWrite : option awaitable_object) : body (option awaitable_object) :=
  do_cpu_work i ;;
  await_if lastWrite ;;
  Ret (Some (ACoroutine (write_output_async i lock))).

Definition await_before_next_write_loop (l : list nat) (lock : bool)
  : body value :=
  call (Log true Starting) ;;
  lastWrite <- for_each l None (await_before_next_write_step lock) ;;
  await_last lastWrite ;;
  call (Log false Done) ;;
  Ret VNone.

(** Example 2 with the function fixed by hand. *)
Definition fixed_function_step (lock : bool) (i : nat)
    (lastWrite : option awaitable_object) : body (option awaitable_object) :=
  do_cpu_work i ;;
  await_if lastWrite ;;
  a <- write_output_awaitable i lock ;;
  Ret (Some (ACoroutine a)).

Definition fixed_function_loop (l : list nat) (lock : bool) : body value :=
  call (Log true Starting) ;;
  lastWrite <- for_each l None (fixed_function_step lock) ;;
  call (Log false AwaitingLastWrite) ;;
  await_last lastWrite ;;
  call (Log false Done) ;;
  Ret VNone.

(** Example 10. *)
Definition fixed_write_step (lock : bool) (i : nat)
    (lastWrite : option awaitable_object) : body (option awaitable_object) :=
  do_cpu_work i ;;
  await_if lastWrite ;;
  a <- fixed_write_output_async (i, lock) ;;
  Ret (Some a).

Definition fixed_write_loop (l : list nat) (lock : bool) : body value :=
  call (Log true Starting) ;;
  lastWrite <- for_each l None (fixed_write_step lock) ;;
  call (Log false AwaitingLastWrite) ;;
  await_last lastWrite ;;
  call (Log false Done) ;;
  Ret VNone.

(** The last two loops in one: [start i] is the call that starts the
    write of [i], [wrap] what the loop keeps of its result. *)
Definition overlapped_step {A : Type} (start : nat -> body A)
    (wrap : A -> awaitable_object) (i : nat)
    (lastWrite : option awaitable_object) : body (option awaitable_object) :=
  do_cpu_work i ;;
  await_if lastWrite ;;
  a <- start i ;;
  Ret (Some (wrap a)).

Definition overlapped_loop {A : Type} (start : nat -> body A)
    (wrap : A -> awaitable_object) (l : list nat) : body value :=
  call (Log true Starting) ;;
  lastWrite <- for_each l None (overlapped_step start wrap) ;;
  call (Log false AwaitingLastWrite) ;;
  await_last lastWrite ;;
  call (Log false Done) ;;
  Ret VNone.

(** *** What the loops print *)

(** Example 1, from clock [T] on: every write follows its work. *)
Fixpoint await_immediately_lines (T : Z) (l : list nat) : list (Z * msg) :=
  match l with
  | [] => []
  | i :: l' =>
      [(T, CpuStart i); (T + WORK_TIME, CpuDone i);
       (T + WORK_TIME, TellOS i); (T + WORK_TIME, OSStarted i);
       (T + WORK_TIME + WRITE_TIME, OSDone i);
       (T + WORK_TIME + WRITE_TIME, Completed i)]
      ++ await_immediately_lines (T + WORK_TIME + WRITE_TIME) l'
  end.

(** Example 2, from clock [T] on, when the write of [j] is the one not
    yet awaited: it starts when it is awaited, after the next work. *)
Fixpoint lazy_lines (T : Z) (j : nat) (l : list nat) : list (Z * msg) :=
  match l with
  | [] => []
  | i :: l' =>
      [(T, CpuStart i); (T + WORK_TIME, CpuDone i);
       (T + WORK_TIME, TellOS j); (T + WORK_TIME, OSStarted j);
       (T + WORK_TIME + WRITE_TIME, OSDone j);
       (T + WORK_TIME + WRITE_TIME, Completed j)]
      ++ lazy_lines (T + WORK_TIME + WRITE_TIME) i l'
  end.

Definition await_before_next_write_lines (i : nat) (l : list nat)
  : list (Z * msg) :=
  let T := WORK_TIME + (WORK_TIME + WRITE_TIME) * Z.of_nat (length l) in
  let j := List.last l i in
  [(0, Starting); (0, CpuStart i); (WORK_TIME, CpuDone i)]
  ++ lazy_lines WORK_TIME i l
  ++ [(T, TellOS j); (T, OSStarted j);
      (T + WRITE_TIME, OSDone j); (T + WRITE_TIME, Completed j);
      (T + WRITE_TIME, Done)].

(** The loops that start the write at once, from clock [T] on, when the
    write of [j] has started at [T] and is not yet awaited; [tell i] is
    the first line of the write of [i]. *)
Fixpoint overlapped_lines (tell : nat -> msg) (T : Z) (j : nat)
    (l : list nat) : list (Z * msg) :=
  match l with
  | [] => []
  | i :: l' =>
      [(T, CpuStart i); (T + WORK_TIME, CpuDone i);
       (T + WORK_TIME, OSDone j); (T + WORK_TIME, Completed j);
       (T + WORK_TIME, tell i); (T + WORK_TIME, OSStarted i)]
      ++ overlapped_lines tell (T + WORK_TIME) i l'
  end.

Definition overlapped_loop_lines (tell : nat -> msg) (i : nat)
    (l : list nat) : list (Z * msg) :=
  let T := WORK_TIME * Z.of_nat (length (i :: l)) in
  let j := List.last l i in
  [(0, Starting); (0, CpuStart i); (WORK_TIME, CpuDone i);
   (WORK_TIME, tell i); (WORK_TIME, OSStarted i)]
  ++ overlapped_lines tell WORK_TIME i l
  ++ [(T, AwaitingLastWrite);
      (T + WRITE_TIME, OSDone j); (T + WRITE_TIME, Completed j);
      (T + WRITE_TIME, Done)].

(** *** The main task alone *)

(** What [Task.__step] does with the outcome of the step. *)
Definition task_post (t : nat) (r : outcome value * world) : world :=
  match r with
  | (Stop v, w1) =>
      snd (settle t (inr v) (set_tasks (store_coro t Closed (tasks w1)) w1))
  | (Exc e, w1) =>
      snd (settle t (inl e) (set_tasks (store_coro t Closed (tasks w1)) w1))
  | (Yielded f k, w1) =>
      add_done_callback f (TaskWakeup t f)
        (set_tasks (store_coro t (Suspended k) (tasks w1)) w1)
  end.

(** The world of a run in which the main task is the only task, the
    lock is free and the log started at 0. *)
Definition solo (T : Z) (P : list (Z * msg)) (F : list future)
    (X : coroutine_object) (Sch : list (Z * handle)) (N : nat) : world :=
  mkWorld T (Some 0) P F [(0%nat, X)] [] Sch false [] N.

(** The world in which a new main task takes its first step. *)
Definition started (main : body value) : world :=
  mkWorld 0 None [] [mkFuture None []] [(0%nat, Created main)] [] []
          false [] 1.

(** [k] is the rest of the write of [i] without lock, suspended on the
    future [f] of its timer: resumed when [f] has its result, it prints
    its last two lines and returns. *)
Definition write_resumes (i f : nat) (k : option exn -> body value) : Prop :=
  forall T P F X Sch N cb,
    F !! f = Some (mkFuture (Some (inr VNone)) cb) ->
    run (k None) (solo T P F X Sch N)
    = (Stop VNone,
       solo T (P ++ [(T, OSDone i); (T, Completed i)]) F X Sch N).

(** [a] stands for the write of [j], started and waiting on [f]:
    awaiting it while [f] is pending suspends on [f] and changes
    nothing. *)
Definition pending_write (j f : nat) (a : awaitable_object) : Prop :=
  forall T P F X Sch N cb,
    F !! f = Some (mkFuture None cb) ->
    exists k,
      run (await a) (solo T P F X Sch N)
      = (Yielded f k, solo T P F X Sch N) /\
      write_resumes j f k.

(** ** Examples 3 and 4 *)

(** [asyncio.gather(cs)]: a task for each coroutine, in the order of the
    arguments. *)
Fixpoint gather_tasks (cs : list (body value)) (ts : list nat)
  : body (list nat) :=
  match cs with
  | [] => Ret ts
  | c :: cs' => CreateTask c (fun t => gather_tasks cs' (ts ++ [t]))
  end.

(** [example3_gather]; the result of [gather] is there when all its
    tasks are done, here by awaiting them in their order. *)
Definition example3_gather : body value :=
  call (Log true Starting) ;;
  writes <- for_each (seq 0 3) [] (fun i writes =>
    do_cpu_work i ;;
    Ret (writes ++ [write_output_async i false])) ;;
  ts <- gather_tasks writes [] ;;
  for_each ts tt (fun t _ => Future__await__ t ;; Ret tt) ;;
  call (Log false Done) ;;
  Ret VNone.

(** [example4_taskgroup_create_task_outside_loop]; the [TaskGroup] as in
    example 5. *)
Definition example4_taskgroup_create_task_outside_loop : body value :=
  call (Log true Starting) ;;
  ts <- for_each (seq 0 3) [] (fun i ts =>
    do_cpu_work i ;;
    CreateTask (write_output_async i false) (fun t => Ret (ts ++ [t]))) ;;
  for_each ts tt (fun t _ => Future__await__ t ;; Ret tt) ;;
  call (Log false Done) ;;
  Ret VNone.

(** ** Work between the call and the [await] *)

(** The environment [env], with [g] run first at the first suspension. *)
Definition env_after (g : world -> world) (env : nat -> world -> world)
  : nat -> world -> world :=
  fun i w => match i with O => env O (g w) | S _ => env i w end.

(** ** The lock under any sequence of calls *)

(** What is done with [write_lock]: a caller calls [acquire()] and drives
    it to its return or to its first suspension; the holder calls
    [release()]; the loop resumes a caller whose future has its
    result. *)
Inductive lock_op : Type := OpAcquire | OpRelease | OpResume.

(** [f.done()], [False] also for what is no future. *)
Definition is_done (f : nat) (w : world) : bool :=
  match futures w !! f with
  | Some (mkFuture (Some _) _) => true
  | _ => false
  end.

(** The waiters in the granted state: woken by a release and not yet
    resumed. *)
Definition granted_waiters (w : world) : list nat :=
  List.filter (fun f => is_done f w) (waiters w).

(** The waiters that still wait. *)
Definition waiting_waiters (w : world) : list nat :=
  List.filter (fun f => negb (is_done f w)) (waiters w).

(** A run of lock operations: the world, the callers suspended in
    [acquire] (future and continuation, oldest first), the futures of
    all callers that were suspended, in the order of their calls, and the
    futures that releases gave their result, in the order of the
    releases. *)
Record lock_run : Type := mkLockRun {
  lw : world;
  suspended : list (nat * (option exn -> body value));
  asked : list nat;
  grants : list nat
}.

(** The loop resumes the first suspended caller whose future is done. *)
Fixpoint resume_first (w : world)
    (l : list (nat * (option exn -> body value)))
  : world * list (nat * (option exn -> body value)) :=
  match l with
  | [] => (w, [])
  | (f, k) :: l' =>
      if is_done f w then
        match run (k (wakeup_mode f w)) w with
        | (Yielded f' k', w') => (w', (f', k') :: l')
        | (_, w') => (w', l')
        end
      else
        let (w', l'') := resume_first w l' in (w', (f, k) :: l'')
  end.

Definition lock_step (op : lock_op) (s : lock_run) : lock_run :=
  match op with
  | OpAcquire =>
      match run Lock_acquire (lw s) with
      | (Yielded f k, w') =>
          mkLockRun w' (suspended s ++ [(f, k)]) (asked s ++ [f]) (grants s)
      | (_, w') => mkLockRun w' (suspended s) (asked s) (grants s)
      end
  | OpRelease =>
      let w' := snd (run Lock_release (lw s)) in
      mkLockRun w' (suspended s) (asked s)
        (grants s ++
         List.filter (fun f => is_done f w' && negb (is_done f (lw s)))
           (waiters (lw s)))
  | OpResume =>
      let (w', l) := resume_first (lw s) (suspended s) in
      mkLockRun w' l (asked s) (grants s)
  end.

Definition lock_steps (ops : list lock_op) (s : lock_run) : lock_run :=
  fold_left (fun s op => lock_step op s) ops s.

(** A release by the holder, then the resumption of the waiter it woke:
    once for each waiter. *)
Definition hand_over (n : nat) : list lock_op :=
  concat (repeat [OpRelease; OpResume] n).

(** [k] is the rest of [acquire()], suspended on its future [f]. *)
Definition acquire_waits (f : nat) (k : option exn -> body value) : Prop :=
  forall w cb,
    futures w !! f = Some (mkFuture (Some (inr (VBool true))) cb) ->
    run (k None) w =
    (Stop (VBool true),
     set_locked true (set_waiters (remove_first f (waiters w)) w)).

(** What holds of the lock at every point. *)
Definition lock_inv (s : lock_run) : Prop :=
  let w := lw s in
  map fst (suspended s) = waiters w /\
  Forall (fun p => acquire_waits (fst p) (snd p)) (suspended s) /\
  NoDup (waiters w) /\
  Forall (fun f => (f < length (futures w))%nat) (waiters w) /\
  match waiters w with
  | [] => True
  | f :: rest =>
      (is_done f w = true ->
       locked w = false /\
       exists cb,
         futures w !! f = Some (mkFuture (Some (inr (VBool true))) cb)) /\
      Forall (fun f' => is_done f' w = false) rest
  end /\
  asked s = grants s ++ waiting_waiters w.

(** ** Awaiting the handle later *)

(** What runs between two steps of a coroutine never takes the result of
    a future away. *)
Definition keeps_results (g : world -> world) : Prop :=
  forall w f r cb,
    futures w !! f = Some (mkFuture (Some r) cb) ->
    exists cb', futures (g w) !! f = Some (mkFuture (Some r) cb').

(** A coroutine whose result tells when its first statement ran:
    [async def probe():
         held = write_lock.locked()
         await async_sleep(WRITE_TIME)
         return held]. *)
Definition probe : body value :=
  held <- call Locked ;;
  s <- async_sleep WRITE_TIME ;;
  Future__await__ s ;;
  Ret (VBool held).

(** [c = probe(); await write_lock.acquire(); return await c]. *)
Definition probe_lazy : body value :=
  Lock_acquire ;;
  r <- probe ;;
  Ret r.

(** [h = js_like_await(probe)(); await write_lock.acquire();
     return await h]. *)
Definition probe_eager : body value :=
  h <- js_like_await (fun _ : unit => probe) tt ;;
  Lock_acquire ;;
  r <- await h ;;
  Ret r.

(** * Properties *)

(** ** The interpreter *)

(** Induction on a body at a fixed result type; the coroutine handed to
    [CreateTask] is not entered. *)
Lemma body_induction {A : Type} (P : body A -> Prop) :
  (forall v, P (Ret v)) ->
  (forall e, P (Raise e)) ->
  (forall X (o : op X) k, (forall r, P (k r)) -> P (Do o k)) ->
  (forall f k, (forall r, P (k r)) -> P (Yield f k)) ->
  (forall c k, (forall t, P (k t)) -> P (CreateTask c k)) ->
  forall c, P c.
Proof.
  intros HRet HRaise HDo HYield HTask.
  fix IH 1.
  intros [v | e | X o k | f k | c k].
  - apply HRet.
  - apply HRaise.
  - apply HDo. intro r. apply IH.
  - apply HYield. intro r. apply IH.
  - apply HTask. intro t. apply IH.
Qed.

Ltac body_cases c :=
  let IH := fresh "IH" in
  induction c as [? | ? | ? ?o ?k IH | ? ?k IH | ?c' ?k IH]
    using body_induction.

Lemma run_bind {A B : Type} (c : body A) (k : A -> body B) (w : world) :
  run (bind c k) w =
  match run c w with
  | (Stop v, w') => run (k v) w'
  | (Exc e, w') => (Exc e, w')
  | (Yielded f k', w') => (Yielded f (fun r => bind (k' r) k), w')
  end.
Proof.
  revert w. body_cases c; intros w; simpl; try reflexivity.
  - destruct (perform o w) as [r w']. apply IH.
  - apply IH.
Qed.

(** [send] inside a body is [run] of the object, then the rest. *)
Lemma run_splice {A B : Type} (c : body A) (cont : outcome A -> body B)
    (w : world) :
  run (splice c cont) w = let (o, w') := run c w in run (cont o) w'.
Proof.
  revert w. body_cases c; intros w; simpl; try reflexivity.
  - destruct (perform o w) as [r w']. apply IH.
  - apply IH.
Qed.

(** One [send] into the loop of [__await__]: what [coro_obj] yields is
    yielded, what it returns is returned, its exception leaves the
    loop. *)
Lemma run_JSLike_loop (c : body value) (w : world) :
  run (JSLike_loop c) w =
  match run c w with
  | (Yielded f k, w') =>
      (Yielded f (fun thrown =>
         match thrown with
         | Some e => Raise e
         | None => JSLike_loop (k None)
         end), w')
  | (Stop v, w') => (Stop v, w')
  | (Exc e, w') => (Exc e, w')
  end.
Proof.
  revert w. body_cases c; intros w; simpl; try reflexivity.
  - destruct (perform o w) as [r w']. apply IH.
  - apply IH.
Qed.

(** The loop is the [while] of the source: a [send] into [coro_obj],
    then the [yield] of what it returned and the loop again. *)
Lemma run_JSLike_loop_send (c : body value) (w : world) :
  run (JSLike_loop c) w =
  run (send (Created c) (fun r =>
         match r with
         | Yielded f k =>
             Yield f (fun thrown =>
               match thrown with
               | Some e => Raise e
               | None => JSLike_loop (k None)
               end)
         | Stop v => Ret v
         | Exc e => Raise e
         end)) w.
Proof.
  simpl. rewrite run_splice, run_JSLike_loop.
  destruct (run c w) as [[f k | v | e] w']; reflexivity.
Qed.

Lemma perform_frame {X : Type} (o : op X) (w : world) :
  iterations (snd (perform o w)) = iterations w /\
  tasks (snd (perform o w)) = tasks w.
Proof.
  destruct o; simpl; auto.
  - unfold log. destruct start; simpl; destruct (logstart w); auto.
  - destruct (d <? 0); auto.
  - unfold settle. destruct (futures w !! f) as [[[r|] cb]|]; auto.
  - unfold settle. destruct (futures w !! f) as [[[r|] cb]|]; auto.
  - destruct (futures w !! f); auto.
  - destruct (futures w !! f) as [[[[e|v]|] cb]|]; auto.
Qed.

(** Running a body is no iteration of the loop. *)
Lemma run_iterations {A : Type} (c : body A) (w : world) :
  iterations (snd (run c w)) = iterations w.
Proof.
  revert w. body_cases c; intros w; simpl; try reflexivity.
  - destruct (perform_frame o w) as [H _].
    destruct (perform o w) as [r w']. rewrite IH. exact H.
  - rewrite IH. reflexivity.
Qed.

(** Running a body only ever adds tasks. *)
Lemma run_tasks {A : Type} (c : body A) (w : world) :
  exists l, tasks (snd (run c w)) = tasks w ++ l.
Proof.
  revert w. body_cases c; intros w; simpl;
    try (exists []; symmetry; apply app_nil_r).
  - destruct (perform_frame o w) as [_ Hp].
    destruct (perform o w) as [r w']. simpl in Hp.
    destruct (IH r w') as [l Hl]. exists l. rewrite Hl, Hp. reflexivity.
  - destruct (IH (length (futures w))
                (call_soon (TaskStep (length (futures w)))
                   (set_tasks (tasks w ++ [(length (futures w), Created c')])
                      (set_futures (futures w ++ [mkFuture None []]) w))))
      as [l Hl].
    eexists. rewrite Hl. simpl. rewrite <- app_assoc. reflexivity.
Qed.

(** ** Futures of the runtime *)

(** [set_result] and [set_exception] on a pending future succeed and
    schedule its callbacks; on a future that is done they raise
    [InvalidStateError] and change nothing. *)
Lemma settle_pending (f : nat) (r : exn + value) (w : world)
    (cb : list handle) :
  futures w !! f = Some (mkFuture None cb) ->
  settle f r w =
  (inr tt,
   set_ready (ready w ++ cb)
     (set_futures (<[f := mkFuture (Some r) []]> (futures w)) w)).
Proof. intros H. unfold settle. rewrite H. reflexivity. Qed.

Lemma settle_done (f : nat) (r s : exn + value) (w : world)
    (cb : list handle) :
  futures w !! f = Some (mkFuture (Some s) cb) ->
  settle f r w = (inl InvalidStateError, w).
Proof. intros H. unfold settle. rewrite H. reflexivity. Qed.

(** ** The eager adapter *)

Lemma insert_middle {A : Type} (l l' : list A) (x y : A) :
  <[length l := x]> (l ++ y :: l') = l ++ x :: l'.
Proof.
  rewrite insert_app_r_alt by lia. rewrite Nat.sub_diag. reflexivity.
Qed.

Lemma settle_fresh (v : value) (w : world) :
  settle (length (futures w)) (inr v)
    (set_futures (futures w ++ [mkFuture None []]) w)
  = (inr tt, pre_resolved v w).
Proof.
  unfold settle, pre_resolved, set_ready, set_futures; simpl.
  rewrite list_lookup_middle by reflexivity. simpl.
  rewrite app_nil_r, insert_middle. reflexivity.
Qed.

Lemma extends_refl (w : world) : extends w w.
Proof.
  unfold extends. repeat split; try reflexivity.
  exists []. symmetry. apply app_nil_r.
Qed.

Lemma extends_pre_resolved (v : value) (w : world) :
  extends w (pre_resolved v w).
Proof.
  unfold extends, pre_resolved. simpl. repeat split; try reflexivity.
  eexists. reflexivity.
Qed.

(** What the adapter does, by how the first [send] ends. *)
Lemma run_coroutine_with_js_like_await {Args : Type}
    (coro : Args -> body value) (args : Args) (w : world) :
  run (coroutine_with_js_like_await coro args) w =
  match run (coro args) w with
  | (Yielded f k, w1) =>
      (Stop (AJSLike (mkJSLikeCoroutine f (Suspended k))), w1)
  | (Stop v, w1) =>
      (Stop (AFuture (length (futures w1))), pre_resolved v w1)
  | (Exc e, w1) => (Exc e, w1)
  end.
Proof.
  unfold coroutine_with_js_like_await. simpl. rewrite run_splice.
  destruct (run (coro args) w) as [[f k | v | e] w1]; try reflexivity.
  simpl. rewrite settle_fresh. reflexivity.
Qed.

Lemma eager_extends {Args : Type} (coro : Args -> body value)
    (args : Args) (w : world) :
  extends (snd (run (coro args) w))
          (snd (run (coroutine_with_js_like_await coro args) w)).
Proof.
  rewrite run_coroutine_with_js_like_await.
  destruct (run (coro args) w) as [[f k | v | e] w1]; simpl;
    auto using extends_refl, extends_pre_resolved.
Qed.

(** C1.  Calling the function that [js_like_await] returns runs the
    wrapped coroutine up to its first suspension point before the call
    returns: the call never suspends its caller (it returns or raises),
    the world it leaves shows everything the world after the first
    [send] shows (at most the future of an immediate result is new), and
    no iteration of the event loop has run. *)
Theorem eager_invoke_runs_prefix {Args : Type}
    (coro : Args -> body value) (args : Args) (w : world) :
  exists r w2,
    run (coroutine_with_js_like_await coro args) w = (r, w2) /\
    (forall f k, r <> Yielded f k) /\
    extends (snd (run (coro args) w)) w2 /\
    iterations w2 = iterations w.
Proof.
  pose proof (eager_extends coro args w) as He.
  pose proof (run_iterations (coroutine_with_js_like_await coro args) w)
    as Hit.
  rewrite run_coroutine_with_js_like_await in *.
  destruct (run (coro args) w) as [[f k | v | e] w1]; simpl in *;
    eexists _, _; (split; [reflexivity|]);
    (split; [discriminate|]); split; assumption.
Qed.

(** The marker test: [write_output_async] has printed its two lines, and
    the OS write has its timer, as soon as the adapted function has
    returned. *)
Example eager_marker :
  let w := snd (run (fixed_write_output_async (0%nat, false))
                  (set_logstart (Some 0) initial)) in
  out w = [(0, TellOS 0); (0, OSStarted 0)] /\
  scheduled w = [(1, FutSetResult 0 VNone)] /\
  iterations w = O.
Proof. repeat split. Qed.

Lemma run_await_pre_resolved (v : value) (w : world) :
  run (await (AFuture (length (futures w)))) (pre_resolved v w)
  = (Stop v, pre_resolved v w).
Proof.
  unfold await, Future__await__. simpl.
  rewrite list_lookup_middle by reflexivity. simpl.
  rewrite list_lookup_middle by reflexivity. reflexivity.
Qed.

(** C5, as the code has it.  When the wrapped coroutine ends at its
    first [send], without having suspended: a return value comes back in
    a future that is already done with it, and awaiting that future
    gives the value at once; an exception is not put in a handle, it is
    raised by the call itself. *)
Theorem eager_invoke_without_suspension {Args : Type}
    (coro : Args -> body value) (args : Args) (w w1 : world)
    (o : outcome value) :
  run (coro args) w = (o, w1) ->
  (forall f k, o <> Yielded f k) ->
  (exists v,
     o = Stop v /\
     let result := length (futures w1) in
     let w2 := pre_resolved v w1 in
     run (coroutine_with_js_like_await coro args) w
       = (Stop (AFuture result), w2) /\
     futures w2 !! result = Some (mkFuture (Some (inr v)) []) /\
     run (await (AFuture result)) w2 = (Stop v, w2)) \/
  (exists e,
     o = Exc e /\
     run (coroutine_with_js_like_await coro args) w = (Exc e, w1)).
Proof.
  intros H Hny. rewrite run_coroutine_with_js_like_await, H.
  destruct o as [f k | v | e].
  - destruct (Hny f k). reflexivity.
  - left. exists v. split; [reflexivity|]. split; [reflexivity|]. split.
    + unfold pre_resolved. simpl. apply list_lookup_middle. reflexivity.
    + apply run_await_pre_resolved.
  - right. exists e. split; reflexivity.
Qed.

Lemma eager_invoke_without_suspension_witness :
  (run (Ret (VInt 5)) initial = (Stop (VInt 5), initial) /\
   run (coroutine_with_js_like_await (fun v : value => Ret v) (VInt 5))
       initial
     = (Stop (AFuture 0), pre_resolved (VInt 5) initial)) /\
  (run (@Raise value (UserError 3)) initial = (Exc (UserError 3), initial) /\
   run (coroutine_with_js_like_await
          (fun n : nat => Raise (UserError n)) 3%nat) initial
     = (Exc (UserError 3), initial)).
Proof.
  split; (split; [reflexivity|]).
  - destruct (eager_invoke_without_suspension
                (fun v : value => Ret v) (VInt 5) initial initial
                (Stop (VInt 5)) eq_refl)
      as [(v & Hv & H & _) | (e & He & _)].
    + discriminate.
    + injection Hv as <-. exact H.
    + discriminate He.
  - destruct (eager_invoke_without_suspension
                (fun n : nat => Raise (UserError n)) 3%nat initial initial
                (Exc (UserError 3)) eq_refl)
      as [(v & Hv & _) | (e & He & H)].
    + discriminate.
    + discriminate Hv.
    + injection He as <-. exact H.
Defined.

(** C5, as stated, fails: a computation that raises before any
    suspension point makes the call raise; no handle is returned. *)
Lemma eager_invoke_failure_is_raised :
  run (coroutine_with_js_like_await
         (fun n : nat => Raise (UserError n)) O) initial
    = (Exc (UserError 0), initial) /\
  ~ (exists h w2,
       run (coroutine_with_js_like_await
              (fun n : nat => Raise (UserError n)) O) initial
         = (Stop h, w2)).
Proof.
  split; [reflexivity|]. intros (h & w2 & H). discriminate H.
Qed.

(** ** Awaiting the handle of the eager adapter *)

Lemma drive_stop {A : Type} (wake : nat -> world -> option exn)
    (env : nat -> world -> world) (fuel i : nat) (c : body A)
    (w w' : world) (v : A) :
  run c w = (Stop v, w') ->
  drive wake env fuel i c w = (Some (inr v), w').
Proof. intros H. destruct fuel; simpl; rewrite H; reflexivity. Qed.

(** Under a driver that only sends, the loop of [__await__] is driven
    exactly as the wrapped body is. *)
Lemma drive_JSLike_loop (env : nat -> world -> world) (fuel : nat) :
  forall (i : nat) (c : body value) (w : world),
    drive send_only env fuel i (JSLike_loop c) w
    = drive send_only env fuel i c w.
Proof.
  induction fuel as [|fuel IH]; intros i c w; simpl;
    rewrite run_JSLike_loop;
    destruct (run c w) as [[f k | v | e] w']; try reflexivity.
  apply IH.
Qed.

(** Every body finishes under every driver: bodies are well-founded
    trees. *)
Lemma drive_terminates {A : Type} (wake : nat -> world -> option exn)
    (env : nat -> world -> world) (c : body A) :
  forall (i : nat) (w : world),
    exists fuel r w', drive wake env fuel i c w = (Some r, w').
Proof.
  body_cases c; intros i w.
  - exists O, (inr v), w. reflexivity.
  - exists O, (inl e), w. reflexivity.
  - destruct (perform o w) as [r w1] eqn:Hp.
    destruct (IH r i w1) as (fuel & res & w' & H).
    exists fuel, res, w'. rewrite <- H.
    destruct fuel; simpl; rewrite Hp; reflexivity.
  - destruct (IH (wake f (env i w)) (S i) (env i w)) as (fuel & res & w' & H).
    exists (S fuel), res, w'. simpl. exact H.
  - destruct (IH (fst (create_task c' w)) i (snd (create_task c' w)))
      as (fuel & res & w' & H).
    exists fuel, res, w'. rewrite <- H.
    destruct fuel; reflexivity.
Qed.

(** The event loop resumes with a plain [send] whenever the awaited
    future has not failed. *)
Lemma wakeup_mode_send (f : nat) (w : world) :
  (forall e cb, futures w !! f <> Some (mkFuture (Some (inl e)) cb)) ->
  wakeup_mode f w = send_only f w.
Proof.
  intros H. unfold wakeup_mode, send_only.
  destruct (futures w !! f) as [[[[e|v]|] cb]|] eqn:Hf; try reflexivity.
  destruct (H e cb). reflexivity.
Qed.

(** The drive depends on the environment from the current suspension on
    only. *)
Lemma drive_env_ext {A : Type} (wake : nat -> world -> option exn)
    (env env' : nat -> world -> world) (fuel : nat) :
  forall (i : nat) (c : body A) (w : world),
    (forall j w', (i <= j)%nat -> env j w' = env' j w') ->
    drive wake env fuel i c w = drive wake env' fuel i c w.
Proof.
  induction fuel as [|fuel IH]; intros i c w Hext; simpl;
    destruct (run c w) as [[f k | v | e] w']; try reflexivity.
  rewrite (Hext i w') by lia. apply IH.
  intros j w'' Hj. apply Hext. lia.
Qed.

Lemma perform_keeps_results {X : Type} (o : op X) :
  keeps_results (fun w => snd (perform o w)).
Proof.
  intros w g r cb Hg.
  assert (Hsettle : forall f' r', exists cb',
            futures (snd (settle f' r' w)) !! g
            = Some (mkFuture (Some r) cb')).
  { intros f' r'. unfold settle.
    destruct (futures w !! f') as [[[s|] cb1]|] eqn:Hf'; simpl; eauto.
    exists cb. rewrite list_lookup_insert_ne; [exact Hg|].
    intros ->. rewrite Hg in Hf'. discriminate Hf'. }
  destruct o; simpl; eauto.
  - unfold log. destruct start; simpl; destruct (logstart w); simpl; eauto.
  - destruct (d <? 0); simpl; eauto.
  - exists cb. rewrite lookup_app_l; [exact Hg|].
    apply lookup_lt_Some in Hg. exact Hg.
  - destruct (futures w !! f); simpl; eauto.
  - destruct (futures w !! f) as [[[[e|v]|] cb1]|]; simpl; eauto.
Qed.

(** No code of a body does. *)
Lemma run_keeps_results {A : Type} (c : body A) :
  keeps_results (fun w => snd (run c w)).
Proof.
  body_cases c; intros w g r cb Hg; simpl; eauto.
  - destruct (perform_keeps_results o w g r cb Hg) as [cb1 H1].
    destruct (perform o w) as [x w1]. simpl in H1.
    exact (IH x w1 g r cb1 H1).
  - apply (IH _ _ g r cb). simpl.
    rewrite lookup_app_l; [exact Hg|].
    apply lookup_lt_Some in Hg. exact Hg.
Qed.

(** [await] on a future that has its result returns it at once. *)
Lemma run_await_resolved (f : nat) (v : value) (cb : list handle)
    (w : world) :
  futures w !! f = Some (mkFuture (Some (inr v)) cb) ->
  run (await (AFuture f)) w = (Stop v, w).
Proof.
  intros Hf. unfold await, Future__await__. simpl.
  rewrite Hf. simpl. rewrite Hf. reflexivity.
Qed.

(** C6, as the code has it.  Under a driver that resumes every
    suspension with [send(None)], which is what happens as long as no
    awaited future fails, awaiting the handle that the adapter returned,
    after whatever the caller ran in between ([g]), gives the result
    (value or exception) of driving the coroutine itself from the world
    of the call, with [g] run at its first suspension; and both finish.
    Awaited right where the adapter returned it, it also leaves the same
    world but for the future of an immediate result.  A
    [JSLikeCoroutine] holds the future that the first [send] yielded and
    the coroutine suspended there, and the first step of awaiting it
    yields that future again and runs nothing. *)
Theorem await_eager_handle_send_only {Args : Type}
    (coro : Args -> body value) (args : Args) (w w1 : world)
    (h : awaitable_object) (g : world -> world)
    (env : nat -> world -> world) :
  run (coroutine_with_js_like_await coro args) w = (Stop h, w1) ->
  keeps_results g ->
  (forall fuel,
     fst (drive send_only env fuel 0 (await h) (g w1))
       = fst (drive send_only (env_after g env) fuel 0 (coro args) w)) /\
  (forall fuel,
     extends (snd (drive send_only env fuel 0 (coro args) w))
             (snd (drive send_only env fuel 0 (await h) w1))) /\
  (exists fuel r,
     fst (drive send_only (env_after g env) fuel 0 (coro args) w) = Some r /\
     fst (drive send_only env fuel 0 (await h) (g w1)) = Some r) /\
  (forall j, h = AJSLike j ->
     (exists k, run (coro args) w = (Yielded (awaitable j) k, w1) /\
                coro_obj j = Suspended k) /\
     forall w', exists k',
       run (await h) w' = (Yielded (awaitable j) k', w')).
Proof.
  intros Hinv Hg.
  assert (Hreplay : forall j, h = AJSLike j ->
     (exists k, run (coro args) w = (Yielded (awaitable j) k, w1) /\
                coro_obj j = Suspended k) /\
     forall w', exists k',
       run (await h) w' = (Yielded (awaitable j) k', w')).
  { intros j ->. split.
    - rewrite run_coroutine_with_js_like_await in Hinv.
      destruct (run (coro args) w) as [[f k | v | e] w'];
        try discriminate Hinv.
      injection Hinv as <- <-. exists k. split; reflexivity.
    - intros w'. eexists. reflexivity. }
  assert (Hres : forall fuel,
     fst (drive send_only env fuel 0 (await h) (g w1))
       = fst (drive send_only (env_after g env) fuel 0 (coro args) w)).
  { intros fuel.
    rewrite run_coroutine_with_js_like_await in Hinv.
    destruct (run (coro args) w) as [[f k | v | e] w'] eqn:Hrun.
    - injection Hinv as <- <-.
      destruct fuel as [|fuel]; simpl; rewrite Hrun; [reflexivity|].
      change (send_only f (env O (g w'))) with (@None exn).
      rewrite drive_JSLike_loop. f_equal.
      apply drive_env_ext. intros j w'' Hj.
      destruct j; [lia|reflexivity].
    - injection Hinv as <- <-.
      rewrite (drive_stop _ _ _ _ _ _ _ _ Hrun).
      destruct (Hg (pre_resolved v w') (length (futures w')) (inr v) [])
        as [cb' Hcb'].
      { unfold pre_resolved. simpl. apply list_lookup_middle. reflexivity. }
      rewrite (drive_stop _ _ _ _ _ _ _ _
                 (run_await_resolved _ v cb' _ Hcb')).
      reflexivity.
    - discriminate Hinv. }
  assert (Hworld : forall fuel,
     extends (snd (drive send_only env fuel 0 (coro args) w))
             (snd (drive send_only env fuel 0 (await h) w1))).
  { intros fuel.
    rewrite run_coroutine_with_js_like_await in Hinv.
    destruct (run (coro args) w) as [[f k | v | e] w'] eqn:Hrun.
    - injection Hinv as <- <-.
      destruct fuel as [|fuel]; simpl; rewrite Hrun.
      + apply extends_refl.
      + change (send_only f (env O w')) with (@None exn).
        rewrite drive_JSLike_loop. apply extends_refl.
    - injection Hinv as <- <-.
      rewrite (drive_stop _ _ _ _ _ _ _ _ Hrun).
      rewrite (drive_stop _ _ _ _ _ _ _ _ (run_await_pre_resolved v w')).
      apply extends_pre_resolved.
    - discriminate Hinv. }
  split; [exact Hres|]. split; [exact Hworld|]. split; [|exact Hreplay].
  destruct (drive_terminates send_only (env_after g env) (coro args) O w)
    as (fuel & r & w' & Hd).
  exists fuel, r. rewrite Hres, Hd. split; reflexivity.
Qed.

Lemma await_eager_handle_send_only_witness :
  let w := set_logstart (Some 0) initial in
  let g := fun w' : world => snd (run (do_cpu_work 1) w') in
  let env := fun (_ : nat) (w' : world) => snd (settle 0 (inr VNone) w') in
  exists h w1,
    run (fixed_write_output_async (0%nat, false)) w = (Stop h, w1) /\
    fst (drive send_only env 1 0 (await h) (g w1)) = Some (inr VNone) /\
    fst (drive send_only (env_after g env) 1 0
           (write_output_async 0 false) w)
      = Some (inr VNone).
Proof.
  cbv zeta. eexists _, _. split; [reflexivity|].
  split; [|reflexivity].
  rewrite (proj1 (await_eager_handle_send_only
    (fun a : nat * bool => write_output_async (fst a) (snd a))
    (O, false) (set_logstart (Some 0) initial) _ _
    (fun w' : world => snd (run (do_cpu_work 1) w'))
    (fun (_ : nat) (w' : world) => snd (settle 0 (inr VNone) w'))
    eq_refl (run_keeps_results (do_cpu_work 1))) 1%nat).
  reflexivity.
Defined.

(** C6, as stated, fails, with plain sends only.  [probe] returns
    whether the lock was held when its first statement ran, and the lock
    is taken between its creation and its [await].  Driven lazily it
    starts at the [await] and returns [True]; through the adapter it has
    started at the call and returns [False]: the prefix of the coroutine
    sees the world of the call, not the world of the [await]. *)
Lemma await_eager_handle_sees_call_state :
  fst (run_until_complete 100 probe_lazy initial)
    = Some (inr (VBool true)) /\
  fst (run_until_complete 100 probe_eager initial)
    = Some (inr (VBool false)).
Proof. split; reflexivity. Qed.

(** When an awaited future fails, the adapter and the coroutine differ:
    the task [t] fails, [comp] handles the failure and returns 42 when
    it is awaited as it is; awaited through the adapter, the failure is
    thrown in at the [yield] of [__await__], never reaches [comp] and
    comes out of the [await]. *)
Lemma await_eager_handle_differs :
  fst (run_until_complete 100 main_lazy initial) = Some (inr (VInt 42)) /\
  fst (run_until_complete 100 main_eager initial)
    = Some (inl (UserError 1)).
Proof. split; reflexivity. Qed.

(** ** Tasks *)

Lemma task_coro_app (t : nat) (obj : coroutine_object)
    (l l' : list (nat * coroutine_object)) :
  task_coro t l = Some obj -> task_coro t (l ++ l') = Some obj.
Proof.
  induction l as [|[t' obj'] l IH]; simpl; [discriminate|].
  destruct (Nat.eqb t t'); auto.
Qed.

Lemma task_coro_fresh (t : nat) (obj : coroutine_object)
    (l : list (nat * coroutine_object)) :
  task_coro t l = None -> task_coro t (l ++ [(t, obj)]) = Some obj.
Proof.
  induction l as [|[t' obj'] l IH]; simpl.
  - rewrite Nat.eqb_refl. reflexivity.
  - destruct (Nat.eqb t t'); [discriminate | exact IH].
Qed.

Lemma task_coro_store (t : nat) (obj : coroutine_object)
    (l : list (nat * coroutine_object)) :
  task_coro t (store_coro t obj l) = Some obj.
Proof.
  induction l as [|[t' obj'] l IH]; simpl.
  - rewrite Nat.eqb_refl. reflexivity.
  - destruct (Nat.eqb t t') eqn:E; simpl; rewrite ?Nat.eqb_refl, ?E; auto.
Qed.

Lemma settle_frame (f : nat) (r : exn + value) (w : world) :
  let w' := snd (settle f r w) in
  out w' = out w /\ now w' = now w /\ tasks w' = tasks w.
Proof.
  unfold settle. destruct (futures w !! f) as [[[s|] cb]|]; simpl; auto.
Qed.

Lemma add_done_callback_frame (f : nat) (h : handle) (w : world) :
  let w' := add_done_callback f h w in
  out w' = out w /\ now w' = now w /\ tasks w' = tasks w.
Proof.
  unfold add_done_callback.
  destruct (futures w !! f) as [[[s|] cb]|]; simpl; auto.
Qed.

(** The first step of a task whose coroutine has not started: one
    [send]. *)
Lemma task_step_created (t : nat) (c : body value) (w : world) :
  task_coro t (tasks w) = Some (Created c) ->
  let w' := task_step t None w in
  task_coro t (tasks w')
    = Some (match fst (run c w) with
            | Yielded _ k => Suspended k
            | _ => Closed
            end) /\
  out w' = out (snd (run c w)) /\ now w' = now (snd (run c w)).
Proof.
  intros H. unfold task_step. rewrite H. simpl.
  destruct (run c w) as [[f k | v | e] w2]; simpl.
  - destruct (add_done_callback_frame f (TaskWakeup t f)
      (set_tasks (store_coro t (Suspended k) (tasks w2)) w2)) as (Ho & Hn & Ht).
    rewrite Ho, Hn, Ht. simpl. rewrite task_coro_store. auto.
  - destruct (settle_frame t (inr v)
      (set_tasks (store_coro t Closed (tasks w2)) w2)) as (Ho & Hn & Ht).
    rewrite Ho, Hn, Ht. simpl. rewrite task_coro_store. auto.
  - destruct (settle_frame t (inl e)
      (set_tasks (store_coro t Closed (tasks w2)) w2)) as (Ho & Hn & Ht).
    rewrite Ho, Hn, Ht. simpl. rewrite task_coro_store. auto.
Qed.

(** C2.  In a world where the id of the next future names no task yet,
    [asyncio.create_task(c)] runs nothing of [c]: the coroutine of the
    new task is still as created, and output, clock, timers and lock are
    as before; it stays as created through whatever the submitter runs
    on with, up to its own return or next suspension; the step that
    the loop makes for the task is what runs [c] up to its first
    suspension point.  The eager adapter on the same body has run that
    much when it returns, so that whenever this prefix prints anything,
    the eager world shows it and the lazy one does not. *)
Theorem lazy_task_is_deferred (c : body value) (w : world) :
  task_coro (length (futures w)) (tasks w) = None ->
  let t := fst (create_task c w) in
  let lazy := snd (create_task c w) in
  let eager :=
    snd (run (coroutine_with_js_like_await (fun _ : unit => c) tt) w) in
  (task_coro t (tasks lazy) = Some (Created c) /\
   out lazy = out w /\ now lazy = now w /\ logstart lazy = logstart w /\
   scheduled lazy = scheduled w /\ locked lazy = locked w /\
   waiters lazy = waiters w /\ iterations lazy = iterations w) /\
  (forall (A : Type) (k : body A),
     task_coro t (tasks (snd (run k lazy))) = Some (Created c)) /\
  (forall w', task_coro t (tasks w') = Some (Created c) ->
     out (run_handle (TaskStep t) w') = out (snd (run c w')) /\
     now (run_handle (TaskStep t) w') = now (snd (run c w'))) /\
  extends (snd (run c w)) eager /\
  (out (snd (run c w)) <> out w -> out eager <> out lazy).
Proof.
  intros Hfresh. simpl.
  assert (Hc : task_coro (length (futures w))
                 (tasks w ++ [(length (futures w), Created c)])
               = Some (Created c)) by (apply task_coro_fresh; exact Hfresh).
  pose proof (eager_extends (fun _ : unit => c) tt w) as He.
  split; [|split; [|split; [|split]]].
  - repeat split; try reflexivity. exact Hc.
  - intros A k.
    destruct (run_tasks k
      (call_soon (TaskStep (length (futures w)))
         (set_tasks (tasks w ++ [(length (futures w), Created c)])
            (set_futures (futures w ++ [mkFuture None []]) w)))) as [l Hl].
    rewrite Hl. apply task_coro_app. exact Hc.
  - intros w' H. apply (task_step_created _ _ _ H).
  - exact He.
  - destruct He as (_ & _ & Ho & _). rewrite Ho. auto.
Qed.

Lemma lazy_task_is_deferred_witness :
  let c := write_output_async 0 false in
  let w := set_logstart (Some 0) initial in
  task_coro (length (futures w)) (tasks w) = None /\
  out (snd (create_task c w)) = [] /\
  out (run_handle (TaskStep 0) (snd (create_task c w)))
    = [(0, TellOS 0); (0, OSStarted 0)] /\
  out (snd (run (coroutine_with_js_like_await (fun _ : unit => c) tt) w))
    = [(0, TellOS 0); (0, OSStarted 0)].
Proof.
  cbv zeta. split; [reflexivity|].
  pose proof (lazy_task_is_deferred (write_output_async 0 false)
                (set_logstart (Some 0) initial) eq_refl) as H.
  cbv zeta in H.
  destruct H as ((H1 & Hout & _) & _ & Hstep & (_ & _ & Heager & _) & _).
  split; [exact Hout|]. split.
  - exact (proj1 (Hstep _ H1)).
  - exact Heager.
Defined.

(** C3, as stated, fails: when [create_task] has returned, the coroutine
    of the new task is as created and nothing is printed, while one
    [send] prints two lines. *)
Lemma submit_does_not_step :
  let c := write_output_async 0 false in
  let w := set_logstart (Some 0) initial in
  task_coro 0 (tasks (snd (create_task c w))) = Some (Created c) /\
  out (snd (create_task c w)) = [] /\
  out (snd (run c w)) = [(0, TellOS 0); (0, OSStarted 0)] /\
  ~ submit_steps_once c w.
Proof.
  simpl. repeat split.
  unfold submit_steps_once. simpl. intros [_ H]. discriminate H.
Qed.

(** C3, as the code has it.  [asyncio.create_task] takes no step: it
    makes the task, a pending future, and puts the task's first step at
    the end of the loop's ready queue.  When the loop runs that entry,
    it takes exactly one step: one [send], after which the coroutine is
    suspended where the [send] left it, or closed. *)
Theorem submit_enqueues_first_step (c : body value) (w : world) :
  task_coro (length (futures w)) (tasks w) = None ->
  let t := fst (create_task c w) in
  let w1 := snd (create_task c w) in
  task_coro t (tasks w1) = Some (Created c) /\
  ready w1 = ready w ++ [TaskStep t] /\
  futures w1 = futures w ++ [mkFuture None []] /\
  out w1 = out w /\
  forall w', task_coro t (tasks w') = Some (Created c) ->
    let w2 := run_handle (TaskStep t) w' in
    task_coro t (tasks w2)
      = Some (match fst (run c w') with
              | Yielded _ k => Suspended k
              | _ => Closed
              end) /\
    out w2 = out (snd (run c w')).
Proof.
  intros Hfresh. simpl.
  split; [apply task_coro_fresh; exact Hfresh|].
  repeat split; try reflexivity;
    destruct (task_step_created _ _ _ H) as (Ht & Ho & _); assumption.
Qed.

Lemma submit_enqueues_first_step_witness :
  let c := write_output_async 0 false in
  let w := set_logstart (Some 0) initial in
  task_coro (length (futures w)) (tasks w) = None /\
  task_coro 0 (tasks (snd (create_task c w))) = Some (Created c) /\
  ready (snd (create_task c w)) = [TaskStep 0] /\
  out (run_handle (TaskStep 0) (snd (create_task c w)))
    = [(0, TellOS 0); (0, OSStarted 0)].
Proof.
  cbv zeta. split; [reflexivity|].
  pose proof (submit_enqueues_first_step (write_output_async 0 false)
                (set_logstart (Some 0) initial) eq_refl) as H.
  cbv zeta in H. destruct H as (H1 & Hr & _ & _ & H5).
  split; [exact H1|]. split; [exact Hr|].
  exact (proj2 (H5 _ H1)).
Defined.

(** ** The event loop, step by step *)

Lemma run_until_done_step (fuel t : nat) (w w' : world) (cb : list handle) :
  futures w !! t = Some (mkFuture None cb) ->
  run_once w = Some w' ->
  run_until_done (S fuel) t w = run_until_done fuel t w'.
Proof. intros Hf Hr. simpl. rewrite Hf, Hr. reflexivity. Qed.

Lemma run_until_done_finished (fuel t : nat) (w : world)
    (r : exn + value) (cb : list handle) :
  futures w !! t = Some (mkFuture (Some r) cb) ->
  run_until_done fuel t w = (Some r, w).
Proof. intros Hf. destruct fuel; simpl; rewrite Hf; reflexivity. Qed.

(** ** [async_sleep] *)

Section Sleep.

Local Opaque Z.ltb Z.leb Z.max Z.sub.

(** The run of [sleep_then_work]: three iterations of the loop, the
    first runs the body up to its [await], the second fires the timer,
    the third resumes the body. *)
Lemma sleep_then_work_run (t d : Z) :
  0 <= d ->
  exists w,
    run_until_complete 100 (sleep_then_work t d) initial
      = (Some (inr VNone), w) /\
    now w = Z.max d t /\
    out w = [(0, Starting); (Z.max d t, Done)].
Proof.
  intros Hd0.
  assert (Hd : (d <? 0) = false) by (apply Z.ltb_ge; lia).
  assert (Hle : (t <=? Z.max d t) = true) by (apply Z.leb_le; lia).
  unfold run_until_complete, create_task. cbv beta iota zeta.
  erewrite run_until_done_step; [ | reflexivity | ].
  2:{ cbv. rewrite Hd. cbv. reflexivity. }
  erewrite run_until_done_step; [ | reflexivity | ].
  2:{ cbv. rewrite Hle. cbv. reflexivity. }
  erewrite run_until_done_step; [ | reflexivity | ].
  2:{ cbv. reflexivity. }
  erewrite run_until_done_finished; [ | reflexivity ].
  eexists. split; [reflexivity|]. simpl.
  rewrite !Z.sub_0_r. split; reflexivity.
Qed.

End Sleep.

(** C9.  [async_sleep(t)] returns a new pending future and has, when it
    returns, put the timer that resolves it at [now + t] on the loop: the
    clock of the call fixes the deadline.  So when [d >= t] units of
    work lie between the call and the [await], the [await] completes on
    the clock where the work left it: the whole takes [d]. *)
Theorem sleep_deadline_fixed_at_call (t d : Z) :
  0 <= t -> t <= d ->
  (forall w,
     exists w1,
       run (async_sleep t) w = (Stop (length (futures w)), w1) /\
       now w1 = now w /\
       futures w1 = futures w ++ [mkFuture None []] /\
       scheduled w1 =
         insert_timer (now w + t)
           (FutSetResult (length (futures w)) VNone) (scheduled w)) /\
  transcript (sleep_then_work t d) = [(0, Starting); (d, Done)] /\
  elapsed (sleep_then_work t d) = Some d.
Proof.
  intros Ht Htd. split.
  { intros w. eexists. split; [reflexivity|]. repeat split. }
  destruct (sleep_then_work_run t d) as (w & Hrun & Hnow & Hout); [lia|].
  unfold transcript, elapsed. rewrite Hrun. simpl.
  rewrite Hnow, Hout. replace (Z.max d t) with d by lia.
  split; reflexivity.
Qed.

Lemma sleep_deadline_fixed_at_call_witness :
  (0 <= 1 /\ 1 <= 2) /\
  transcript (sleep_then_work 1 2) = [(0, Starting); (2, Done)] /\
  elapsed (sleep_then_work 1 2) = Some 2.
Proof.
  split; [lia|].
  apply (sleep_deadline_fixed_at_call 1 2); lia.
Defined.

(** When the work is shorter than the delay, the [await] waits for what
    is left of the delay only. *)
Lemma sleep_then_short_work (t d : Z) :
  0 <= d -> d <= t -> elapsed (sleep_then_work t d) = Some t.
Proof.
  intros Hd Hdt.
  destruct (sleep_then_work_run t d Hd) as (w & Hrun & Hnow & _).
  unfold elapsed. rewrite Hrun, Hnow. f_equal. lia.
Qed.

(** ** The write lock *)

(** [write_lock.release()] on a held lock with waiters: the lock is
    unlocked and the first waiter, and no other, gets its result; it
    stays in the queue until it runs. *)
Lemma Lock_release_wakes_first (w : world) (f : nat) (rest : list nat)
    (cb : list handle) :
  locked w = true ->
  waiters w = f :: rest ->
  futures w !! f = Some (mkFuture None cb) ->
  run Lock_release w =
  (Stop tt,
   set_ready (ready w ++ cb)
     (set_futures (<[f := mkFuture (Some (inr (VBool true))) []]> (futures w))
        (set_locked false w))).
Proof.
  intros Hl Hw Hf. unfold Lock_release, Lock__wake_up_first. simpl.
  rewrite Hl. simpl. rewrite Hw. simpl. rewrite Hf. simpl.
  unfold settle. simpl. rewrite Hf. simpl. reflexivity.
Qed.

(** The waiter that was woken, when it is resumed: it leaves the queue
    and takes the lock. *)
Lemma Lock_acquire_resumed (w : world) :
  locked w = true ->
  exists k w1,
    run Lock_acquire w = (Yielded (length (futures w)) k, w1) /\
    waiters w1 = waiters w ++ [length (futures w)] /\
    forall w2 cb,
      futures w2 !! length (futures w)
        = Some (mkFuture (Some (inr (VBool true))) cb) ->
      run (k None) w2 =
      (Stop (VBool true),
       set_locked true
         (set_waiters (remove_first (length (futures w)) (waiters w2)) w2)).
Proof.
  intros Hl. unfold Lock_acquire. simpl. rewrite Hl. simpl.
  rewrite list_lookup_middle by reflexivity. simpl.
  eexists _, _. split; [reflexivity|]. split; [reflexivity|].
  intros w2 cb Hf. simpl. rewrite Hf. simpl. rewrite Hf. simpl.
  reflexivity.
Qed.

(** *** [write_lock] under any sequence of calls *)

Lemma is_done_pending (f : nat) (w : world) :
  (f < length (futures w))%nat -> is_done f w = false ->
  exists cb, futures w !! f = Some (mkFuture None cb).
Proof.
  intros Hlt Hd. unfold is_done in Hd.
  destruct (futures w !! f) as [[[r|] cb]|] eqn:Hf.
  - discriminate Hd.
  - exists cb. reflexivity.
  - apply lookup_ge_None in Hf. lia.
Qed.

(** [acquire()] on a free lock that nobody waits for returns at once;
    otherwise the caller is queued behind the waiters on a new future. *)
Lemma Lock_acquire_free (w : world) :
  locked w = false -> waiters w = [] ->
  run Lock_acquire w = (Stop (VBool true), set_locked true w).
Proof.
  intros Hl Hw. unfold Lock_acquire. simpl. rewrite Hl, Hw. reflexivity.
Qed.

Lemma Lock_acquire_queues (w : world) :
  negb (locked w) && bool_decide (waiters w = []) = false ->
  exists k,
    run Lock_acquire w =
    (Yielded (length (futures w)) k,
     set_waiters (waiters w ++ [length (futures w)])
       (set_futures (futures w ++ [mkFuture None []]) w)) /\
    acquire_waits (length (futures w)) k.
Proof.
  intros Hc. unfold Lock_acquire. simpl. rewrite Hc. simpl.
  rewrite list_lookup_middle by reflexivity. simpl.
  eexists. split; [reflexivity|].
  intros w2 cb Hf. simpl. rewrite Hf. simpl. rewrite Hf. simpl.
  reflexivity.
Qed.

Lemma Lock_release_not_held (w : world) :
  locked w = false ->
  run Lock_release w = (Exc RuntimeError_not_acquired, w).
Proof. intros Hl. unfold Lock_release. simpl. rewrite Hl. reflexivity. Qed.

Lemma Lock_release_no_waiter (w : world) :
  locked w = true -> waiters w = [] ->
  run Lock_release w = (Stop tt, set_locked false w).
Proof.
  intros Hl Hw. unfold Lock_release, Lock__wake_up_first. simpl.
  rewrite Hl. simpl. rewrite Hw. reflexivity.
Qed.

Lemma is_done_same (f : nat) (w w' : world) :
  futures w' = futures w -> is_done f w' = is_done f w.
Proof. intros H. unfold is_done. rewrite H. reflexivity. Qed.

Lemma is_done_app (f : nat) (w w' : world) (l : list future) :
  futures w' = futures w ++ l -> (f < length (futures w))%nat ->
  is_done f w' = is_done f w.
Proof.
  intros H Hlt. unfold is_done. rewrite H, lookup_app_l by exact Hlt.
  reflexivity.
Qed.

Lemma is_done_insert_ne (f f' : nat) (x : future) (w w' : world) :
  futures w' = <[f' := x]> (futures w) -> f <> f' ->
  is_done f w' = is_done f w.
Proof.
  intros H Hne. unfold is_done.
  rewrite H, list_lookup_insert_ne by congruence. reflexivity.
Qed.

Lemma filter_ext_Forall {A : Type} (p q : A -> bool) (l : list A) :
  Forall (fun x => p x = q x) l -> List.filter p l = List.filter q l.
Proof.
  induction 1 as [|x l Hx _ IH]; [reflexivity|].
  simpl. rewrite Hx, IH. reflexivity.
Qed.

Lemma filter_none {A : Type} (p : A -> bool) (l : list A) :
  Forall (fun x => p x = false) l -> List.filter p l = [].
Proof.
  induction 1 as [|x l Hx _ IH]; [reflexivity|].
  simpl. rewrite Hx. exact IH.
Qed.

Lemma filter_all {A : Type} (p : A -> bool) (l : list A) :
  Forall (fun x => p x = true) l -> List.filter p l = l.
Proof.
  induction 1 as [|x l Hx _ IH]; [reflexivity|].
  simpl. rewrite Hx, IH. reflexivity.
Qed.

Lemma resume_first_none (w : world)
    (l : list (nat * (option exn -> body value))) :
  Forall (fun p => is_done (fst p) w = false) l -> resume_first w l = (w, l).
Proof.
  induction 1 as [|[f k] l Hx _ IH]; [reflexivity|].
  simpl in *. rewrite Hx, IH. reflexivity.
Qed.

(** [lock_inv] holds of a free lock and is kept by every operation. *)
Lemma lock_inv_start (w0 : world) :
  locked w0 = false -> waiters w0 = [] -> lock_inv (mkLockRun w0 [] [] []).
Proof.
  intros _ Hw. unfold lock_inv, waiting_waiters. simpl. rewrite Hw. simpl.
  repeat split; constructor.
Qed.

(** While the lock is held, no waiter is in the granted state. *)
Lemma lock_inv_held (s : lock_run) :
  lock_inv s -> locked (lw s) = true ->
  Forall (fun f => is_done f (lw s) = false) (waiters (lw s)).
Proof.
  intros (_ & _ & _ & _ & Hh & _) Hl.
  destruct (waiters (lw s)) as [|f rest]; [constructor|].
  destruct Hh as [Hf Hrest]. constructor; [|exact Hrest].
  destruct (is_done f (lw s)) eqn:Hd; [|reflexivity].
  destruct (Hf eq_refl) as [Hl' _]. congruence.
Qed.

Lemma lock_inv_granted (s : lock_run) :
  lock_inv s ->
  granted_waiters (lw s) = [] \/
  exists f rest, waiters (lw s) = f :: rest /\ is_done f (lw s) = true /\
                 granted_waiters (lw s) = [f].
Proof.
  intros (_ & _ & _ & _ & Hh & _). unfold granted_waiters.
  destruct (waiters (lw s)) as [|f rest]; [left; reflexivity|].
  destruct Hh as [_ Hrest]. simpl.
  rewrite (filter_none _ rest Hrest).
  destruct (is_done f (lw s)) eqn:Hd; [right|left; reflexivity].
  exists f, rest. auto.
Qed.

Lemma acquire_inv (s : lock_run) :
  lock_inv s -> lock_inv (lock_step OpAcquire s).
Proof.
  intros (H1 & H2 & H3 & H4 & H5 & H6). unfold lock_step.
  destruct (negb (locked (lw s)) && bool_decide (waiters (lw s) = []))
    eqn:Hc.
  - apply andb_true_iff in Hc as [Hl Hw].
    apply negb_true_iff in Hl. apply bool_decide_eq_true in Hw.
    rewrite (Lock_acquire_free _ Hl Hw).
    unfold lock_inv, waiting_waiters in *. simpl. rewrite Hw in *. simpl.
    repeat split; auto.
  - destruct (Lock_acquire_queues _ Hc) as (k & Hk & Hres).
    rewrite Hk. set (n := length (futures (lw s))) in *.
    set (w' := set_waiters (waiters (lw s) ++ [n])
                 (set_futures (futures (lw s) ++ [mkFuture None []])
                    (lw s))).
    assert (Hfut : futures w' = futures (lw s) ++ [mkFuture None []])
      by reflexivity.
    assert (Hwt : waiters w' = waiters (lw s) ++ [n]) by reflexivity.
    assert (Hlk : locked w' = locked (lw s)) by reflexivity.
    clearbody w'.
    assert (Hn : n ∉ waiters (lw s)).
    { intros Hin. rewrite Forall_forall in H4. apply H4 in Hin. lia. }
    assert (Hsame : Forall (fun f => is_done f w' = is_done f (lw s))
                      (waiters (lw s))).
    { eapply Forall_impl; [exact H4|]. intros f Hf.
      eapply is_done_app; [exact Hfut | exact Hf]. }
    assert (Hnew : is_done n w' = false).
    { unfold is_done. rewrite Hfut. unfold n.
      rewrite list_lookup_middle by reflexivity. reflexivity. }
    unfold lock_inv, waiting_waiters in *. simpl. rewrite Hwt, Hfut, Hlk.
    split; [rewrite map_app, H1; reflexivity|].
    split; [apply Forall_app; split;
            [exact H2 | constructor; [exact Hres | constructor]]|].
    split.
    { apply NoDup_app. split; [exact H3|]. split.
      - intros x Hx Hx'.
        apply list_elem_of_singleton in Hx'. subst x. contradiction.
      - apply NoDup_singleton. }
    split.
    { apply Forall_app. rewrite length_app. simpl. split.
      - eapply Forall_impl; [exact H4|]. simpl. intros; lia.
      - constructor; [fold n; lia | constructor]. }
    split.
    { destruct (waiters (lw s)) as [|f rest]; simpl.
      - split; [|constructor]. rewrite Hnew. discriminate.
      - destruct H5 as [Hf Hrest].
        inversion Hsame as [|? ? Hsf Hsr]; subst.
        split.
        + rewrite Hsf. intros Hd. destruct (Hf Hd) as [Hl [cb Hcb]].
          split; [exact Hl|]. exists cb.
          rewrite lookup_app_l; [exact Hcb|].
          inversion H4; subst; assumption.
        + apply Forall_app. split.
          * rewrite Forall_forall in *. intros x Hx.
            rewrite (Hsr x Hx). apply Hrest. exact Hx.
          * constructor; [exact Hnew | constructor]. }
    rewrite List.filter_app. simpl. rewrite Hnew. simpl.
    rewrite H6, <- app_assoc. f_equal. f_equal.
    apply filter_ext_Forall.
    eapply Forall_impl; [exact Hsame|]. simpl. intros f ->. reflexivity.
Qed.

(** A release by the holder with callers waiting: the oldest waiter, and
    no other, goes to the granted state. *)
Lemma release_step (s : lock_run) (f : nat) (rest : list nat) :
  lock_inv s -> locked (lw s) = true -> waiters (lw s) = f :: rest ->
  let s' := lock_step OpRelease s in
  lock_inv s' /\ grants s' = grants s ++ [f] /\ asked s' = asked s /\
  waiters (lw s') = f :: rest /\ is_done f (lw s') = true /\
  locked (lw s') = false /\ granted_waiters (lw s') = [f].
Proof.
  intros Hinv Hl Hw.
  pose proof (lock_inv_held s Hinv Hl) as Hpend.
  destruct Hinv as (H1 & H2 & H3 & H4 & H5 & H6).
  rewrite Hw in *.
  inversion Hpend as [|? ? Hpf Hpr]; subst.
  inversion H4 as [|? ? Hlt Hltr]; subst.
  apply NoDup_cons in H3 as [Hnin Hnd].
  destruct (is_done_pending f (lw s) Hlt Hpf) as [cb Hcb].
  cbv zeta. unfold lock_step.
  rewrite (Lock_release_wakes_first (lw s) f rest cb Hl Hw Hcb).
  cbn [snd]. rewrite Hw.
  set (w' := set_ready (ready (lw s) ++ cb)
               (set_futures
                  (<[f := mkFuture (Some (inr (VBool true))) []]>
                     (futures (lw s)))
                  (set_locked false (lw s)))).
  assert (Hfut : futures w'
                 = <[f := mkFuture (Some (inr (VBool true))) []]>
                     (futures (lw s))) by reflexivity.
  assert (Hwt : waiters w' = f :: rest) by (unfold w'; simpl; exact Hw).
  assert (Hlk : locked w' = false) by reflexivity.
  clearbody w'.
  assert (Hdf : is_done f w' = true).
  { unfold is_done. rewrite Hfut, list_lookup_insert_eq by exact Hlt.
    reflexivity. }
  assert (Hsame : Forall (fun x => is_done x w' = is_done x (lw s)) rest).
  { rewrite Forall_forall. intros x Hx.
    eapply is_done_insert_ne; [exact Hfut|].
    intros ->. contradiction. }
  assert (Hrest' : Forall (fun x => is_done x w' = false) rest).
  { rewrite Forall_forall in *. intros x Hx.
    rewrite (Hsame x Hx). apply Hpr. exact Hx. }
  assert (Hnew : List.filter
                   (fun x => is_done x w' && negb (is_done x (lw s)))
                   (f :: rest) = [f]).
  { simpl. rewrite Hdf, Hpf. simpl. f_equal.
    apply filter_none. rewrite Forall_forall in *. intros x Hx.
    rewrite (Hrest' x Hx). reflexivity. }
  rewrite Hnew. cbn [lw grants asked suspended].
  split; [|split; [reflexivity|split; [reflexivity|split; [exact Hwt|
          split; [exact Hdf|split; [exact Hlk|]]]]]].
  - unfold lock_inv, waiting_waiters in *.
    cbn [lw grants asked suspended]. rewrite Hwt.
    split; [exact H1|]. split; [exact H2|].
    split; [apply NoDup_cons; auto|].
    split.
    { rewrite Hfut, length_insert. constructor; assumption. }
    split.
    { split; [|exact Hrest']. intros _. split; [exact Hlk|].
      exists []. rewrite Hfut. apply list_lookup_insert_eq. exact Hlt. }
    rewrite H6, Hw. simpl. rewrite Hpf, Hdf. simpl.
    rewrite <- app_assoc. simpl. f_equal. f_equal.
    apply filter_ext_Forall.
    eapply Forall_impl; [exact Hsame|]. simpl. intros x ->. reflexivity.
  - unfold granted_waiters. rewrite Hwt. simpl. rewrite Hdf.
    f_equal. apply filter_none. exact Hrest'.
Qed.

(** The waiter in the granted state, resumed: it leaves the queue and
    holds the lock. *)
Lemma resume_step (s : lock_run) (f : nat) (rest : list nat) :
  lock_inv s -> waiters (lw s) = f :: rest -> is_done f (lw s) = true ->
  let s' := lock_step OpResume s in
  lock_inv s' /\ grants s' = grants s /\ asked s' = asked s /\
  waiters (lw s') = rest /\ locked (lw s') = true /\
  granted_waiters (lw s') = [].
Proof.
  intros (H1 & H2 & H3 & H4 & H5 & H6) Hw Hd.
  rewrite Hw in *.
  destruct H5 as [Hf Hrest]. destruct (Hf Hd) as [Hl [cb Hcb]].
  apply Forall_cons in H4 as [Hlt Hltr].
  apply NoDup_cons in H3 as [Hnin Hnd].
  destruct (suspended s) as [|[f0 k] susp] eqn:Hs; [discriminate H1|].
  simpl in H1. injection H1 as Hf0 H1. rewrite Hf0 in *. clear Hf0.
  apply Forall_cons in H2 as [Hk Hks]. simpl in Hk.
  cbv zeta. unfold lock_step. rewrite Hs. simpl resume_first. rewrite Hd.
  assert (Hwk : wakeup_mode f (lw s) = None).
  { unfold wakeup_mode. rewrite Hcb. reflexivity. }
  rewrite Hwk, (Hk (lw s) cb Hcb), Hw. simpl remove_first.
  rewrite Nat.eqb_refl.
  set (w' := set_locked true (set_waiters rest (lw s))).
  assert (Hfut : futures w' = futures (lw s)) by reflexivity.
  assert (Hwt : waiters w' = rest) by reflexivity.
  assert (Hlk : locked w' = true) by reflexivity.
  clearbody w'.
  assert (Hrest' : Forall (fun x => is_done x w' = false) rest).
  { eapply Forall_impl; [exact Hrest|]. simpl. intros x Hx.
    rewrite (is_done_same x (lw s) w' Hfut). exact Hx. }
  cbn [lw grants asked suspended].
  split; [|split; [reflexivity|split; [reflexivity|split; [exact Hwt|
          split; [exact Hlk|]]]]].
  - unfold lock_inv, waiting_waiters in *.
    cbn [lw grants asked suspended]. rewrite Hwt, Hfut.
    split; [exact H1|]. split; [exact Hks|]. split; [exact Hnd|].
    split; [exact Hltr|].
    split.
    { destruct rest as [|g rest']; [exact I|].
      apply Forall_cons in Hrest' as [Hg Hgr].
      split; [|exact Hgr]. rewrite Hg. discriminate. }
    rewrite H6, Hw. simpl. rewrite Hd. simpl. f_equal.
    apply filter_ext_Forall.
    rewrite Forall_forall in *. intros x Hx.
    rewrite (is_done_same x (lw s) w' Hfut). reflexivity.
  - unfold granted_waiters. rewrite Hwt. apply filter_none. exact Hrest'.
Qed.

Lemma release_inv (s : lock_run) :
  lock_inv s -> lock_inv (lock_step OpRelease s).
Proof.
  intros Hinv.
  destruct (locked (lw s)) eqn:Hl.
  - destruct (waiters (lw s)) as [|f rest] eqn:Hw.
    + destruct Hinv as (H1 & H2 & H3 & H4 & H5 & H6).
      unfold lock_step. rewrite (Lock_release_no_waiter _ Hl Hw).
      unfold lock_inv, waiting_waiters in *.
      cbn [snd lw grants asked suspended List.filter app].
      change (waiters (set_locked false (lw s))) with (waiters (lw s)).
      change (futures (set_locked false (lw s))) with (futures (lw s)).
      rewrite Hw in *. cbn [List.filter] in *. rewrite app_nil_r.
      repeat split; assumption.
    + apply (release_step s f rest Hinv Hl Hw).
  - destruct Hinv as (H1 & H2 & H3 & H4 & H5 & H6).
    unfold lock_step. rewrite (Lock_release_not_held _ Hl). cbn [snd].
    assert (E : List.filter
                  (fun f => is_done f (lw s) && negb (is_done f (lw s)))
                  (waiters (lw s)) = []).
    { apply filter_none. apply Forall_forall. intros x _.
      destruct (is_done x (lw s)); reflexivity. }
    rewrite E, app_nil_r.
    unfold lock_inv. cbn [lw grants asked suspended].
    repeat split; assumption.
Qed.

Lemma resume_inv (s : lock_run) :
  lock_inv s -> lock_inv (lock_step OpResume s).
Proof.
  intros Hinv.
  destruct (waiters (lw s)) as [|f rest] eqn:Hw.
  - destruct Hinv as (H1 & H2 & H3 & H4 & H5 & H6).
    rewrite Hw in H1.
    destruct (suspended s) as [|p susp] eqn:Hs; [|discriminate H1].
    unfold lock_step. rewrite Hs. simpl.
    unfold lock_inv, waiting_waiters in *.
    cbn [lw grants asked suspended]. rewrite Hw in *.
    repeat split; assumption.
  - destruct (is_done f (lw s)) eqn:Hd.
    + apply (resume_step s f rest Hinv Hw Hd).
    + pose proof Hinv as (H1 & H2 & H3 & H4 & H5 & H6).
      rewrite Hw in H5. destruct H5 as [_ Hrest].
      assert (Hnone : Forall (fun p => is_done (fst p) (lw s) = false)
                        (suspended s)).
      { apply Forall_forall. intros [g k] Hin. simpl.
        assert (Hg : g ∈ waiters (lw s)).
        { rewrite <- H1. apply list_elem_of_fmap. exists (g, k). auto. }
        rewrite Hw in Hg. apply elem_of_cons in Hg as [-> | Hg];
          [exact Hd|].
        rewrite Forall_forall in Hrest. apply Hrest. exact Hg. }
      unfold lock_step. rewrite (resume_first_none _ _ Hnone).
      destruct s; exact Hinv.
Qed.

Lemma lock_inv_step (op : lock_op) (s : lock_run) :
  lock_inv s -> lock_inv (lock_step op s).
Proof.
  destruct op; [apply acquire_inv | apply release_inv | apply resume_inv].
Qed.

Lemma lock_inv_steps (ops : list lock_op) (s : lock_run) :
  lock_inv s -> lock_inv (lock_steps ops s).
Proof.
  revert s. induction ops as [|op ops IH]; intros s Hinv; [exact Hinv|].
  apply IH, lock_inv_step, Hinv.
Qed.

Lemma lock_steps_app (ops1 ops2 : list lock_op) (s : lock_run) :
  lock_steps (ops1 ++ ops2) s = lock_steps ops2 (lock_steps ops1 s).
Proof. apply fold_left_app. Qed.

(** One release and one resumption for each waiter of a held lock:
    the waiters are granted one after the other, oldest first. *)
Lemma hand_over_all (ws : list nat) :
  forall s,
    lock_inv s -> locked (lw s) = true -> waiters (lw s) = ws ->
    let s' := lock_steps (hand_over (length ws)) s in
    grants s' = grants s ++ ws /\ asked s' = asked s /\
    waiters (lw s') = [] /\ locked (lw s') = true.
Proof.
  induction ws as [|f rest IH]; intros s Hinv Hl Hw; cbv zeta.
  - simpl. rewrite app_nil_r. auto.
  - change (hand_over (length (f :: rest)))
      with ([OpRelease; OpResume] ++ hand_over (length rest)).
    rewrite lock_steps_app.
    destruct (release_step s f rest Hinv Hl Hw)
      as (Hi1 & Hg1 & Ha1 & Hw1 & Hd1 & _).
    destruct (resume_step _ f rest Hi1 Hw1 Hd1)
      as (Hi2 & Hg2 & Ha2 & Hw2 & Hl2 & _).
    change (lock_steps [OpRelease; OpResume] s)
      with (lock_step OpResume (lock_step OpRelease s)).
    destruct (IH _ Hi2 Hl2 Hw2) as (Hg & Ha & Hw' & Hl').
    rewrite Hg, Ha, Hg2, Hg1, Ha2, Ha1, <- app_assoc.
    auto.
Qed.

(** C7.  [write_lock] under any sequence of [acquire] calls, releases
    and resumptions, from a free lock.  At every point at most one
    waiter is in the granted state (woken by a release, not yet
    resumed), and the callers that were suspended are, in the order of
    their calls, those that the releases have granted, in the order of
    the releases, followed by those that still wait.  A release by the
    holder grants the oldest waiter and no other; a release while nobody
    holds the lock, so also a second release before the granted waiter
    has run, raises and grants nobody; the granted waiter, resumed,
    leaves the queue and holds the lock.  So when the lock is held and N
    callers are suspended, N releases, each followed by the resumption
    of the waiter it granted, grant them all, in exactly the order of
    their acquires. *)
Theorem lock_grants_in_acquire_order (w0 : world) (ops : list lock_op) :
  locked w0 = false -> waiters w0 = [] ->
  let s := lock_steps ops (mkLockRun w0 [] [] []) in
  (length (granted_waiters (lw s)) <= 1)%nat /\
  asked s = grants s ++ waiting_waiters (lw s) /\
  (forall f rest,
     locked (lw s) = true -> waiters (lw s) = f :: rest ->
     grants (lock_step OpRelease s) = grants s ++ [f] /\
     granted_waiters (lw (lock_step OpRelease s)) = [f]) /\
  (locked (lw s) = false ->
     fst (run Lock_release (lw s)) = Exc RuntimeError_not_acquired /\
     grants (lock_step OpRelease s) = grants s /\
     lw (lock_step OpRelease s) = lw s) /\
  (forall f,
     granted_waiters (lw s) = [f] ->
     exists rest,
       waiters (lw s) = f :: rest /\
       waiters (lw (lock_step OpResume s)) = rest /\
       locked (lw (lock_step OpResume s)) = true /\
       granted_waiters (lw (lock_step OpResume s)) = []) /\
  (locked (lw s) = true ->
     let s' := lock_steps (hand_over (length (waiters (lw s)))) s in
     waiting_waiters (lw s) = waiters (lw s) /\
     grants s' = asked s /\ asked s' = asked s /\ waiters (lw s') = []).
Proof.
  intros Hl0 Hw0. cbv zeta.
  pose proof (lock_inv_steps ops _ (lock_inv_start w0 Hl0 Hw0)) as Hinv.
  set (s := lock_steps ops (mkLockRun w0 [] [] [])) in *. clearbody s.
  split; [|split; [|split; [|split; [|split]]]].
  - destruct (lock_inv_granted s Hinv) as [-> | (f & rest & _ & _ & ->)];
      simpl; lia.
  - apply Hinv.
  - intros f rest Hl Hw.
    destruct (release_step s f rest Hinv Hl Hw) as (_ & Hg & _ & _ & _ & _ & Hgr).
    split; assumption.
  - intros Hl. unfold lock_step.
    rewrite (Lock_release_not_held _ Hl). cbn [fst snd lw grants].
    split; [reflexivity|]. split; [|reflexivity].
    rewrite filter_none; [apply app_nil_r|].
    apply Forall_forall. intros x _. destruct (is_done x (lw s)); reflexivity.
  - intros f Hg.
    destruct (lock_inv_granted s Hinv) as [E | (f' & rest & Hw & Hd & E)];
      rewrite E in Hg; [discriminate Hg|].
    injection Hg as ->.
    destruct (resume_step s f rest Hinv Hw Hd) as (_ & _ & _ & Hw' & Hl' & Hg').
    exists rest. auto.
  - intros Hl.
    assert (Hall : waiting_waiters (lw s) = waiters (lw s)).
    { unfold waiting_waiters. apply filter_all.
      eapply Forall_impl; [exact (lock_inv_held s Hinv Hl)|].
      simpl. intros x ->. reflexivity. }
    destruct (hand_over_all (waiters (lw s)) s Hinv Hl eq_refl)
      as (Hg & Ha & Hw & _).
    split; [exact Hall|]. split; [|split; assumption].
    rewrite Hg. destruct Hinv as (_ & _ & _ & _ & _ & H6).
    rewrite H6, Hall. reflexivity.
Qed.

Lemma lock_grants_in_acquire_order_witness :
  let s := lock_steps [OpAcquire; OpAcquire; OpAcquire; OpAcquire]
             (mkLockRun initial [] [] []) in
  locked (lw s) = true /\ asked s = [0; 1; 2]%nat /\
  grants (lock_steps [OpRelease; OpResume; OpRelease] s) = [0; 1]%nat /\
  granted_waiters (lw (lock_steps [OpRelease; OpResume; OpRelease] s))
    = [1%nat] /\
  grants (lock_steps (hand_over 3) s) = [0; 1; 2]%nat.
Proof.
  cbv zeta. split; [reflexivity|]. split; [reflexivity|].
  split; [reflexivity|]. split; [reflexivity|].
  exact (proj1 (proj2 (proj2 (proj2 (proj2 (proj2 (proj2
    (lock_grants_in_acquire_order initial
       [OpAcquire; OpAcquire; OpAcquire; OpAcquire]
       eq_refl eq_refl))))) eq_refl))).
Defined.

(** *** [os_async_write] with the lock *)

(** [os_async_write(i, lock=True)], when it returns, has left
    [write_lock] as it was: [write_lock.acquire()] has only made a
    coroutine.  The acquire runs at the first step of the
    awaitable returned: with the lock free and nobody waiting, that step
    takes the lock and starts the timer of the write; otherwise it
    appends a new future at the end of the waiters.  The place in the
    queue is thus given by the order of the first steps. *)
Theorem os_async_write_acquires_when_driven (i : nat) (w w1 : world)
    (aw : body value) :
  run (os_async_write i true) w = (Stop aw, w1) ->
  (locked w1 = locked w /\ waiters w1 = waiters w /\
   futures w1 = futures w /\ scheduled w1 = scheduled w) /\
  forall w',
    let fut := length (futures w') in
    exists k w2,
      run aw w' = (Yielded fut k, w2) /\
      futures w2 = futures w' ++ [mkFuture None []] /\
      if negb (locked w') && bool_decide (waiters w' = [])
      then locked w2 = true /\ waiters w2 = waiters w' /\
           scheduled w2 =
             insert_timer (now w' + WRITE_TIME) (FutSetResult fut VNone)
               (scheduled w')
      else locked w2 = locked w' /\ waiters w2 = waiters w' ++ [fut] /\
           scheduled w2 = scheduled w'.
Proof.
  intros H. simpl in H. unfold log in H. simpl in H.
  destruct (logstart w) as [s|] eqn:Hs; simpl in H; [|discriminate H].
  injection H as <- <-. simpl. split; [auto|].
  intros w'. unfold _wait_for_write_with_lock. simpl.
  destruct (negb (locked w') && bool_decide (waiters w' = [])) eqn:Hc; simpl.
  - rewrite list_lookup_middle by reflexivity. simpl.
    eexists _, _. split; [reflexivity|]. simpl. auto.
  - rewrite list_lookup_middle by reflexivity. simpl.
    eexists _, _. split; [reflexivity|]. simpl. auto.
Qed.

Lemma os_async_write_acquires_when_driven_witness :
  let w := set_logstart (Some 0) initial in
  run (os_async_write 0 true) w
    = (Stop (_wait_for_write_with_lock true Lock_acquire),
       set_out [(0, OSStarted 0%nat)] w) /\
  locked (set_out [(0, OSStarted 0%nat)] w) = locked w.
Proof.
  cbv zeta. split; [reflexivity|].
  exact (proj1 (proj1 (os_async_write_acquires_when_driven 0
     (set_logstart (Some 0) initial) _ _ eq_refl))).
Defined.

(** C10.  The code at two locked writes: write 0 is called first, write
    1 second; the lock is free after both calls, where the claim has it
    acquired by write 0.  The awaitable of write 1 is stepped first and
    takes the lock, the awaitable of write 0 then queues behind it.  In
    a whole run that awaits write 1 first, write 1 completes first. *)
Lemma os_async_write_does_not_acquire :
  let w := set_logstart (Some 0) initial in
  let (r0, w0) := run (os_async_write 0 true) w in
  let (r1, w1) := run (os_async_write 1 true) w0 in
  (locked w1 = false /\ waiters w1 = []) /\
  match r0, r1 with
  | Stop a0, Stop a1 =>
      let (o1, w2) := run a1 w1 in
      let (o0, w3) := run a0 w2 in
      locked w2 = true /\ waiters w2 = [] /\
      scheduled w2 = [(1, FutSetResult 0 VNone)] /\
      locked w3 = true /\ waiters w3 = [1%nat] /\
      scheduled w3 = [(1, FutSetResult 0 VNone)]
  | _, _ => False
  end /\
  transcript locked_writes_reversed =
    [(0, Starting); (0, TellOSAwaitable 0); (0, OSStarted 0);
     (0, TellOSAwaitable 1); (0, OSStarted 1);
     (1, Completed 1); (2, Completed 0); (2, Done)].
Proof. vm_compute. repeat split. Qed.

(** The lock of the notebook at work: in example 5 the three tasks ask
    for the lock in the order 0, 1, 2 and their writes complete in that
    order, one [WRITE_TIME] apart.  This is the transcript that the
    notebook shows. *)
Example example5_transcript :
  transcript example5_taskgroup_create_task_outside_loop_with_lock =
    [(0, Starting); (0, CpuStart 0); (2, CpuDone 0); (2, CpuStart 1);
     (4, CpuDone 1); (4, CpuStart 2); (6, CpuDone 2);
     (6, TellOS 0); (6, OSStarted 0); (6, TellOS 1); (6, OSStarted 1);
     (6, TellOS 2); (6, OSStarted 2);
     (7, Completed 0); (8, Completed 1); (9, Completed 2); (9, Done)].
Proof. vm_compute. reflexivity. Qed.

(** ** The examples end to end *)

(** The transcripts that the notebook shows for examples 1, 2, 6, the
    function fixed by hand and example 10, with the times rounded. *)
Example example1_transcript :
  transcript (example1_await_immediately false) =
    [(0, Starting); (0, CpuStart 0); (2, CpuDone 0);
     (2, TellOS 0); (2, OSStarted 0); (3, OSDone 0); (3, Completed 0);
     (3, CpuStart 1); (5, CpuDone 1);
     (5, TellOS 1); (5, OSStarted 1); (6, OSDone 1); (6, Completed 1);
     (6, CpuStart 2); (8, CpuDone 2);
     (8, TellOS 2); (8, OSStarted 2); (9, OSDone 2); (9, Completed 2);
     (9, Done)].
Proof. vm_compute. reflexivity. Qed.

Example example2_fixed_function_transcript :
  transcript (example2_await_before_next_write_fixed_function false) =
    [(0, Starting); (0, CpuStart 0); (2, CpuDone 0);
     (2, TellOSAwaitable 0); (2, OSStarted 0);
     (2, CpuStart 1); (4, CpuDone 1); (4, OSDone 0); (4, Completed 0);
     (4, TellOSAwaitable 1); (4, OSStarted 1);
     (4, CpuStart 2); (6, CpuDone 2); (6, OSDone 1); (6, Completed 1);
     (6, TellOSAwaitable 2); (6, OSStarted 2); (6, AwaitingLastWrite);
     (7, OSDone 2); (7, Completed 2); (7, Done)].
Proof. vm_compute. reflexivity. Qed.

(** C4.  With [WORK_TIME = 2], [WRITE_TIME = 1] and three iterations,
    with or without the single-writer lock: example 10, which awaits the
    handle of the previous eager write before it starts the next write,
    takes [3 * WORK_TIME + WRITE_TIME = 7], write 0 overlapping work 1
    and write 1 overlapping work 2; example 2 (bare coroutines) and
    example 6 (tasks), where nothing makes the loop run between the
    creation of a write and the moment it is awaited, take
    [3 * WORK_TIME + 3 * WRITE_TIME = 9], and no write overlaps any
    work; so does example 5, whose locked tasks are all created before
    the loop runs at all.  Without lock the transcripts are those of the
    notebook. *)
Theorem end_to_end_elapsed (lock : bool) :
  (elapsed (example10_fixed_write_with_gather lock)
     = Some (3 * WORK_TIME + WRITE_TIME) /\
   3 * WORK_TIME + WRITE_TIME = 7 /\
   write_overlaps_work
     (transcript (example10_fixed_write_with_gather lock)) 0 1 = true /\
   write_overlaps_work
     (transcript (example10_fixed_write_with_gather lock)) 1 2 = true) /\
  (elapsed (example2_await_before_next_write lock)
     = Some (3 * WORK_TIME + 3 * WRITE_TIME) /\
   elapsed (example6_await_before_next_write_with_task lock)
     = Some (3 * WORK_TIME + 3 * WRITE_TIME) /\
   3 * WORK_TIME + 3 * WRITE_TIME = 9 /\
   forall i j,
     write_overlaps_work
       (transcript (example2_await_before_next_write lock)) i j = false /\
     write_overlaps_work
       (transcript (example6_await_before_next_write_with_task lock)) i j
       = false) /\
  (elapsed example5_taskgroup_create_task_outside_loop_with_lock
     = Some (3 * WORK_TIME + 3 * WRITE_TIME) /\
   forall i j,
     write_overlaps_work
       (transcript example5_taskgroup_create_task_outside_loop_with_lock)
       i j = false) /\
  (transcript (example10_fixed_write_with_gather false) = eager_transcript /\
   transcript (example2_await_before_next_write false) = lazy_transcript /\
   transcript (example6_await_before_next_write_with_task false)
     = lazy_transcript).
Proof.
  split; [|split; [|split]].
  - destruct lock; vm_compute; repeat split.
  - split; [destruct lock; vm_compute; reflexivity|].
    split; [destruct lock; vm_compute; reflexivity|].
    split; [reflexivity|].
    intros i j.
    destruct lock;
      destruct i as [|[|[|i]]]; destruct j as [|[|[|j]]];
      vm_compute; split; reflexivity.
  - split; [vm_compute; reflexivity|].
    intros i j.
    destruct i as [|[|[|i]]]; destruct j as [|[|[|j]]];
      vm_compute; reflexivity.
  - vm_compute. repeat split.
Qed.

(** Where the previous handle is awaited matters: awaited before the
    next CPU work instead of after it, every write is waited for with
    nothing else to do, and the eager adapter gains nothing. *)
Example eager_await_before_work_elapsed (lock : bool) :
  elapsed (eager_await_before_work lock)
    = Some (3 * WORK_TIME + 3 * WRITE_TIME).
Proof. destruct lock; vm_compute; reflexivity. Qed.

(** ** The core of the specification: Future and Lock *)

Section CoreFuture.

Context {T E : Type}.

(** On a settled future every call fails and changes nothing. *)
Lemma settled_apply_calls (cs : list (Core.settle_call T E))
    (f : Core.Future T E) (rq : list (Core.ready_entry T E)) :
  Core.is_settled f = true ->
  Core.apply_calls cs f rq
  = (repeat (Some Core.AlreadyResolved) (length cs), f, rq).
Proof.
  intros Hs. induction cs as [|c cs IH]; simpl; [reflexivity|].
  assert (Hc : Core.apply_call c f rq = (Some Core.AlreadyResolved, f, rq)).
  { unfold Core.is_settled in Hs.
    destruct c; unfold Core.apply_call, Core.resolve, Core.fail,
      Core.settle_with; destruct (Core.fstate f);
      try discriminate Hs; reflexivity. }
  rewrite Hc, IH. reflexivity.
Qed.

(** C8.  Whatever calls of [resolve] and [fail] are made on a future, in
    whatever state it starts: on a pending future the first call
    succeeds and sets the state, and every later call fails with
    [AlreadyResolved] and leaves future and ready queue as they are; on
    a settled future every call does. *)
Theorem future_settles_at_most_once (cs : list (Core.settle_call T E))
    (f : Core.Future T E) (rq : list (Core.ready_entry T E)) :
  let '(rs, f', rq') := Core.apply_calls cs f rq in
  match Core.fstate f, cs with
  | Core.Pending, c :: rest =>
      rs = None :: repeat (Some Core.AlreadyResolved) (length rest) /\
      Core.fstate f' = Core.call_state c /\
      Core.apply_calls rest f' rq'
        = (repeat (Some Core.AlreadyResolved) (length rest), f', rq')
  | Core.Pending, [] => rs = [] /\ f' = f /\ rq' = rq
  | _, _ =>
      rs = repeat (Some Core.AlreadyResolved) (length cs) /\
      f' = f /\ rq' = rq
  end.
Proof.
  destruct (Core.fstate f) eqn:Hf.
  - destruct cs as [|c rest]; simpl; [auto|].
    assert (Hc : exists f1 rq1,
              Core.apply_call c f rq = (None, f1, rq1) /\
              Core.fstate f1 = Core.call_state c).
    { destruct c; unfold Core.apply_call, Core.resolve, Core.fail,
        Core.settle_with; rewrite Hf; eexists _, _; split; reflexivity. }
    destruct Hc as (f1 & rq1 & Hc & Hst). rewrite Hc.
    assert (Hs : Core.is_settled f1 = true).
    { unfold Core.is_settled. rewrite Hst. destruct c; reflexivity. }
    rewrite (settled_apply_calls rest f1 rq1 Hs).
    split; [reflexivity|]. split; [exact Hst|].
    apply settled_apply_calls. exact Hs.
  - rewrite settled_apply_calls; [auto|].
    unfold Core.is_settled. rewrite Hf. reflexivity.
  - rewrite settled_apply_calls; [auto|].
    unfold Core.is_settled. rewrite Hf. reflexivity.
Qed.

End CoreFuture.

(** A future that is resolved, then resolved again, then failed. *)
Example future_settled_twice :
  Core.apply_calls
    [Core.CallResolve 1%nat; Core.CallResolve 2%nat; Core.CallFail tt]
    (Core.mkFuture Core.Pending [7%nat]) []
  = ([None; Some Core.AlreadyResolved; Some Core.AlreadyResolved],
     Core.mkFuture (Core.Resolved 1%nat) [7%nat],
     [(7%nat, inr 1%nat)]).
Proof. reflexivity. Qed.

(** Callers that find the lock held are queued in the order of their
    calls, each on a new pending future. *)
Lemma acquire_all_held (ks : list Core.continuation) :
  forall (ws : list nat) (fs : list (Core.Future unit unit))
         (rq : list (Core.ready_entry unit unit)),
    Core.acquire_all ks (Core.mkSystem (Core.mkLock true ws) fs rq)
    = (seq (length fs) (length ks),
       Core.mkSystem (Core.mkLock true (ws ++ seq (length fs) (length ks)))
         (fs ++ map Core.waiting ks) rq).
Proof.
  induction ks as [|k ks IH]; intros ws fs rq; simpl.
  - rewrite !app_nil_r. reflexivity.
  - unfold Core.acquire_and_wait, Core.acquire. simpl.
    rewrite list_lookup_middle by reflexivity. simpl.
    replace (<[length fs := Core.mkFuture Core.Pending [k]]>
               (fs ++ [Core.mkFuture Core.Pending []]))
      with (fs ++ [Core.waiting k])
      by (rewrite insert_middle; reflexivity).
    rewrite IH. rewrite length_app. simpl.
    replace (length fs + 1)%nat with (S (length fs)) by lia.
    rewrite <- !app_assoc. reflexivity.
Qed.

(** As many releases as there are waiters at the head of the queue grant
    these waiters, one per release, from the oldest on. *)
Lemma release_n_grants (ks : list Core.continuation) :
  forall (pre post : list (Core.Future unit unit)) (ws : list nat)
         (rq : list (Core.ready_entry unit unit)),
    Core.release_n (length ks)
      (Core.mkSystem
         (Core.mkLock true (seq (length pre) (length ks) ++ ws))
         (pre ++ map Core.waiting ks ++ post) rq)
    = (repeat None (length ks),
       Core.mkSystem (Core.mkLock true ws)
         (pre ++ map Core.granted ks ++ post)
         (rq ++ map (fun k => (k, inr tt)) ks)).
Proof.
  induction ks as [|k ks IH]; intros pre post ws rq; simpl.
  - rewrite app_nil_r. reflexivity.
  - unfold Core.release. simpl.
    rewrite list_lookup_middle by reflexivity. simpl.
    replace (<[length pre := Core.mkFuture (Core.Resolved tt) [k]]>
               (pre ++ Core.waiting k :: map Core.waiting ks ++ post))
      with ((pre ++ [Core.granted k]) ++ map Core.waiting ks ++ post)
      by (rewrite insert_middle, <- app_assoc; reflexivity).
    replace (S (length pre)) with (length (pre ++ [Core.granted k]))
      by (rewrite length_app; simpl; lia).
    rewrite IH. rewrite <- !app_assoc. reflexivity.
Qed.

(** The lock of the specification: on a held lock, callers
    [ks1 ++ ks2] acquire in this order: each gets a new pending future and waits on it, and the lock holds
    these futures in the order of the calls.  After as many releases as
    [ks1] is long: every release succeeded; the futures resolved are
    exactly those of [ks1], each once, and the ready queue has the
    callers of [ks1] in the order of their acquires; the callers of
    [ks2] still wait, in their order; the lock is still held.  Each
    release, made by the holder, thus grants the oldest waiter and no
    other: as many grants as releases, one holder at a time. *)
Lemma Core_lock_hands_over_in_order
    (fs : list (Core.Future unit unit))
    (rq : list (Core.ready_entry unit unit))
    (ks1 ks2 : list Core.continuation) :
  let s0 := Core.mkSystem (Core.mkLock true []) fs rq in
  let (futs, s1) := Core.acquire_all (ks1 ++ ks2) s0 in
  let (rs, s2) := Core.release_n (length ks1) s1 in
  (futs = seq (length fs) (length (ks1 ++ ks2)) /\
   Core.lock s1 = Core.mkLock true futs /\
   Core.store s1 = fs ++ map Core.waiting (ks1 ++ ks2) /\
   Core.readyq s1 = rq) /\
  (rs = repeat None (length ks1) /\
   Core.lock s2
     = Core.mkLock true (seq (length fs + length ks1) (length ks2)) /\
   Core.store s2 = fs ++ map Core.granted ks1 ++ map Core.waiting ks2 /\
   Core.readyq s2 = rq ++ map (fun k => (k, inr tt)) ks1).
Proof.
  simpl. rewrite acquire_all_held. simpl.
  rewrite length_app, seq_app, map_app.
  rewrite release_n_grants. simpl. auto.
Qed.

(** Three waiters and two releases; then the last waiter, the release
    that frees the lock, and one release too many. *)
Example lock_three_waiters :
  let s1 := snd (Core.acquire_all [10; 11; 12]%nat
                   (snd (Core.acquire (Core.mkSystem
                                         (Core.mkLock false []) [] [])))) in
  let s2 := snd (Core.release_n 2 s1) in
  Core.lock s1 = Core.mkLock true [1; 2; 3]%nat /\
  Core.lock s2 = Core.mkLock true [3%nat] /\
  Core.readyq s2 = [(10%nat, inr tt); (11%nat, inr tt)] /\
  fst (Core.release_n 3 s2) = [None; None; Some Core.NotHeld].
Proof. repeat split. Qed.

(** * The notebook beyond the examples' transcripts *)

(** ** Logging *)

(** [log] once the log has started. *)
Lemma log_started (m : msg) (w : world) (s : Z) :
  logstart w = Some s ->
  log false m w = (inr tt, set_out (out w ++ [(now w - s, m)]) w).
Proof. intros H. unfold log. simpl. rewrite H. reflexivity. Qed.

(** Before any [log(..., start=True)], [logstart] is [None] and
    [current - logstart] is a [TypeError]: [do_cpu_work], [os_async_write]
    and the writes raise it at their first line and leave the world as it
    is.  The coroutine [write_output_async] raises it at its first step;
    the function fixed by hand and the decorated function raise it from
    the call. *)
Theorem log_never_started (i : nat) (lock : bool) (w : world) :
  logstart w = None ->
  run (do_cpu_work i) w = (Exc TypeError, w) /\
  run (os_async_write i lock) w = (Exc TypeError, w) /\
  run (write_output_async i lock) w = (Exc TypeError, w) /\
  run (write_output_awaitable i lock) w = (Exc TypeError, w) /\
  run (fixed_write_output_async (i, lock)) w = (Exc TypeError, w).
Proof.
  intros H.
  assert (Hlog : forall m, log false m w = (inl TypeError, w)).
  { intros m. unfold log. simpl. rewrite H. reflexivity. }
  repeat split; simpl; rewrite Hlog; reflexivity.
Qed.

Lemma log_never_started_witness :
  logstart initial = None /\
  run (write_output_async 0 false) initial = (Exc TypeError, initial).
Proof.
  split; [reflexivity|].
  exact (proj1 (proj2 (proj2 (log_never_started 0 false initial eq_refl)))).
Defined.

(** ** The write under the lock *)






(** ** Exceptions at the [yield] of [__await__] *)

(** When the loop of [JSLikeCoroutine.__await__] suspends, it is because
    [coro_obj.send(None)] returned a future; [send(None)] at that [yield]
    goes on with the loop on [coro_obj], and an exception thrown in at
    that [yield] leaves [__await__] at once, the world untouched:
    [coro_obj] is not resumed and does not see it.  The same holds at
    the first [yield], that of [self.awaitable]. *)
Theorem JSLike_throw_is_not_forwarded (c : body value) (w w1 : world)
    (f : nat) (k : option exn -> body value) :
  run (JSLike_loop c) w = (Yielded f k, w1) ->
  (exists k0,
     run c w = (Yielded f k0, w1) /\ k None = JSLike_loop (k0 None)) /\
  (forall e w', run (k (Some e)) w' = (Exc e, w')) /\
  (forall j w', exists k',
     run (JSLikeCoroutine__await__ j) w' = (Yielded (awaitable j) k', w') /\
     forall e w'', run (k' (Some e)) w'' = (Exc e, w'')).
Proof.
  intros H. rewrite run_JSLike_loop in H.
  destruct (run c w) as [[f0 k0 | v | e] w0]; try discriminate H.
  injection H as <- <- <-.
  split; [exists k0; split; reflexivity|].
  split; [reflexivity|].
  intros j w'. eexists. split; [reflexivity|]. reflexivity.
Qed.

Lemma JSLike_throw_is_not_forwarded_witness :
  let w := set_logstart (Some 0) initial in
  exists k w1,
    run (JSLike_loop (write_output_async 0 true)) w = (Yielded 0 k, w1) /\
    locked w1 = true /\
    run (k (Some (UserError 7))) w1 = (Exc (UserError 7), w1).
Proof.
  cbv zeta. eexists _, _. split; [reflexivity|]. split; [reflexivity|].
  exact (proj1 (proj2 (JSLike_throw_is_not_forwarded
    (write_output_async 0 true) (set_logstart (Some 0) initial) _ _ _
    eq_refl)) (UserError 7) _).
Defined.


(** ** The function fixed by hand and the decorated function *)



(** ** Work between the call and the [await] *)

(** When the first [send] suspends and every suspension is resumed
    with [send(None)] (no awaited future fails), what the caller runs
    between the call of the decorated function and the [await] of the
    handle ([g]) runs while the coroutine is suspended at its first
    suspension point: awaiting the handle after [g] gives the result and
    the world of the coroutine driven lazily with [g] run at its first
    suspension.  (With a failing future the two differ, see
    [await_eager_handle_differs].) *)
Theorem eager_gap_is_first_suspension {Args : Type}
    (coro : Args -> body value) (args : Args) (w w1 : world)
    (f : nat) (k : option exn -> body value)
    (g : world -> world) (env : nat -> world -> world) (fuel : nat) :
  run (coro args) w = (Yielded f k, w1) ->
  let h := AJSLike (mkJSLikeCoroutine f (Suspended k)) in
  run (coroutine_with_js_like_await coro args) w = (Stop h, w1) /\
  drive send_only env (S fuel) 0 (await h) (g w1)
    = drive send_only (env_after g env) (S fuel) 0 (coro args) w.
Proof.
  intros Hrun h. split.
  - rewrite run_coroutine_with_js_like_await, Hrun. reflexivity.
  - simpl. rewrite Hrun.
    change (send_only f (env O (g w1))) with (@None exn).
    rewrite drive_JSLike_loop.
    apply drive_env_ext. intros j w' Hj.
    destruct j; [lia|reflexivity].
Qed.

Lemma eager_gap_is_first_suspension_witness :
  let w := set_logstart (Some 0) initial in
  let coro := fun a : nat * bool => write_output_async (fst a) (snd a) in
  let g := fun w' : world => snd (run (do_cpu_work 1) w') in
  let env := fun (_ : nat) (w' : world) => snd (settle 0 (inr VNone) w') in
  exists f k w1,
    run (coro (0%nat, false)) w = (Yielded f k, w1) /\
    drive send_only env 1 0
      (await (AJSLike (mkJSLikeCoroutine f (Suspended k)))) (g w1)
    = drive send_only (env_after g env) 1 0 (coro (0%nat, false)) w.
Proof.
  cbv zeta. eexists _, _, _. split; [reflexivity|].
  exact (proj2 (eager_gap_is_first_suspension
    (fun a : nat * bool => write_output_async (fst a) (snd a))
    (0%nat, false) (set_logstart (Some 0) initial) _ _ _
    (fun w' : world => snd (run (do_cpu_work 1) w'))
    (fun (_ : nat) (w' : world) => snd (settle 0 (inr VNone) w'))
    0%nat eq_refl)).
Defined.

(** ** The delay of [async_sleep] *)

Lemma sleep_then_short_work_witness :
  (0 <= 1 /\ 1 <= 2) /\ elapsed (sleep_then_work 2 1) = Some 2.
Proof.
  split; [lia|]. apply (sleep_then_short_work 2 1); lia.
Defined.

(** ** The loops over any list of indices *)

(** The examples are their loops at [range(3)]. *)
Lemma example1_is_loop (lock : bool) :
  example1_await_immediately lock = await_immediately_loop (seq 0 3) lock.
Proof. reflexivity. Qed.

Lemma example2_is_loop (lock : bool) :
  example2_await_before_next_write lock
  = await_before_next_write_loop (seq 0 3) lock.
Proof. reflexivity. Qed.

Lemma example2_fixed_function_is_loop (lock : bool) :
  example2_await_before_next_write_fixed_function lock
  = fixed_function_loop (seq 0 3) lock.
Proof. reflexivity. Qed.

Lemma example10_is_loop (lock : bool) :
  example10_fixed_write_with_gather lock = fixed_write_loop (seq 0 3) lock.
Proof. reflexivity. Qed.

Lemma fixed_write_loop_is_overlapped (l : list nat) (lock : bool) :
  fixed_write_loop l lock
  = overlapped_loop (fun i => fixed_write_output_async (i, lock))
      (fun a => a) l.
Proof. reflexivity. Qed.

Lemma fixed_function_loop_is_overlapped (l : list nat) (lock : bool) :
  fixed_function_loop l lock
  = overlapped_loop (fun i => write_output_awaitable i lock) ACoroutine l.
Proof. reflexivity. Qed.

(** At three indices the lines are the transcripts of the notebook. *)
Lemma await_before_next_write_lines_3 :
  await_before_next_write_lines 0 [1; 2]%nat = lazy_transcript.
Proof. reflexivity. Qed.

Lemma overlapped_loop_lines_3 :
  overlapped_loop_lines TellOS 0 [1; 2]%nat = eager_transcript.
Proof. reflexivity. Qed.

Section Loops.

Local Arguments run_until_done : simpl never.

(** *** The loop with one task *)

Lemma task_step_post (t : nat) (obj : coroutine_object)
    (thrown : option exn) (w : world) :
  task_coro t (tasks w) = Some obj ->
  task_step t thrown w = task_post t (resume obj thrown w).
Proof.
  intros H. unfold task_step, task_post. rewrite H.
  destruct (resume obj thrown w) as [[f k | v | e] w1]; reflexivity.
Qed.

(** A world in which only task [t] lives, suspended on [f], and the only
    timer is the one that resolves [f]. *)
Lemma wait_for_timer (fuel t f : nat) (D : Z) (w : world)
    (k : option exn -> body value) (cbt : list handle) :
  ready w = [] ->
  scheduled w = [(D, FutSetResult f VNone)] ->
  futures w !! f = Some (mkFuture None [TaskWakeup t f]) ->
  futures w !! t = Some (mkFuture None cbt) ->
  f <> t ->
  task_coro t (tasks w) = Some (Suspended k) ->
  run_until_done (S (S fuel)) t w =
  run_until_done fuel t
    (task_post t
       (run (k None)
          (set_iterations (S (S (iterations w)))
             (set_ready []
                (set_futures
                   (<[f := mkFuture (Some (inr VNone)) []]> (futures w))
                   (set_scheduled [] (set_now (Z.max (now w) D) w))))))).
Proof.
  intros Hr Hs Hf Ht Hne Hk.
  assert (Hle : (D <=? Z.max (now w) D) = true) by (apply Z.leb_le; lia).
  assert (Hlen : (f < length (futures w))%nat).
  { apply lookup_lt_Some in Hf. exact Hf. }
  erewrite run_until_done_step; [ | exact Ht | ].
  2:{ unfold run_once. rewrite Hr, Hs. simpl. rewrite Hle. simpl.
      unfold settle. simpl. rewrite Hf. simpl. reflexivity. }
  erewrite run_until_done_step; [ | | ].
  2:{ simpl. rewrite list_lookup_insert_ne by exact Hne. exact Ht. }
  2:{ unfold run_once. simpl. unfold wakeup_mode. simpl.
      rewrite list_lookup_insert_eq by exact Hlen. simpl.
      erewrite task_step_post by (simpl; exact Hk). simpl. reflexivity. }
  reflexivity.
Qed.

Lemma solo_ext (T T' : Z) (P P' : list (Z * msg)) (F F' : list future)
    (X X' : coroutine_object) (Sch Sch' : list (Z * handle)) (N N' : nat) :
  T = T' -> P = P' -> F = F' -> X = X' -> Sch = Sch' -> N = N' ->
  solo T P F X Sch N = solo T' P' F' X' Sch' N'.
Proof. intros; subst; reflexivity. Qed.

Lemma for_each_cons {S : Type} (i : nat) (l : list nat) (s : S)
    (step : nat -> S -> body S) :
  for_each (i :: l) s step = (s' <- step i s ;; for_each l s' step).
Proof. reflexivity. Qed.

Lemma last_cons_default {A : Type} (l : list A) (i j : A) :
  List.last (i :: l) j = List.last l i.
Proof.
  revert i j. induction l as [|a l IH]; intros i j; [reflexivity|].
  change (List.last (i :: a :: l) j) with (List.last (a :: l) j).
  rewrite IH. symmetry. apply IH.
Qed.

(** The first iteration of the loop on a new main task runs its first
    step. *)
Lemma first_step (fuel : nat) (main : body value) :
  run_until_complete (S fuel) main initial =
  run_until_done fuel 0 (task_post 0 (run main (started main))).
Proof.
  unfold run_until_complete, create_task. cbv beta iota zeta.
  erewrite run_until_done_step; [ | reflexivity | ].
  2:{ unfold run_once. cbn [ready scheduled initial call_soon set_ready
        set_tasks set_futures set_iterations set_scheduled set_now
        tasks futures now logstart out locked waiters iterations
        app length split_due run_ready run_handle].
      erewrite task_step_post by reflexivity. reflexivity. }
  reflexivity.
Qed.

(** [log("Starting", start=True)] as the first statement of the main
    task. *)
Lemma run_log_start (c : body value) (main : body value) :
  run (call (Log true Starting) ;; c) (started main)
  = run c (solo 0 [(0, Starting)] [mkFuture None []] (Created main) [] 1).
Proof. reflexivity. Qed.

(** The main task, alone, suspends on the newest future, which the only
    timer resolves: two iterations of the loop later it runs again, on the
    later of the clock and the deadline. *)
Lemma solo_wait (fuel : nat) (T D : Z) (P : list (Z * msg))
    (F : list future) (X : coroutine_object) (N : nat)
    (K : option exn -> body value) :
  F !! 0%nat = Some (mkFuture None []) ->
  run_until_done (S (S fuel)) 0
    (task_post 0
       (Yielded (length F) K,
        solo T P (F ++ [mkFuture None []]) X
          [(D, FutSetResult (length F) VNone)] N))
  = run_until_done fuel 0
      (task_post 0
         (run (K None)
            (solo (Z.max T D) P (F ++ [mkFuture (Some (inr VNone)) []])
               (Suspended K) [] (S (S N))))).
Proof.
  intros HF.
  assert (Hlen : (0 < length F)%nat).
  { apply lookup_lt_Some in HF. exact HF. }
  assert (Hpost :
    task_post 0
      (Yielded (length F) K,
       solo T P (F ++ [mkFuture None []]) X
         [(D, FutSetResult (length F) VNone)] N)
    = solo T P (F ++ [mkFuture None [TaskWakeup 0 (length F)]])
        (Suspended K) [(D, FutSetResult (length F) VNone)] N).
  { unfold task_post, add_done_callback, solo. cbn.
    rewrite list_lookup_middle by reflexivity. cbn.
    rewrite insert_middle. reflexivity. }
  rewrite Hpost. clear Hpost.
  erewrite wait_for_timer; cycle 1.
  - reflexivity.
  - reflexivity.
  - cbn. apply list_lookup_middle. reflexivity.
  - cbn. rewrite lookup_app_l by exact Hlen. exact HF.
  - lia.
  - reflexivity.
  - f_equal. f_equal. f_equal.
    unfold solo, set_iterations, set_ready, set_futures, set_scheduled,
      set_now. cbn.
    rewrite insert_middle. reflexivity.
Qed.

(** The main task, alone, returns: the loop stops with its result. *)
Lemma solo_done (fuel : nat) (v : value) (T : Z) (P : list (Z * msg))
    (F : list future) (X : coroutine_object) (N : nat) :
  F !! 0%nat = Some (mkFuture None []) ->
  run_until_done fuel 0 (task_post 0 (Stop v, solo T P F X [] N))
  = (Some (inr v),
     mkWorld T (Some 0) P (<[0%nat := mkFuture (Some (inr v)) []]> F)
       [(0%nat, Closed)] [] [] false [] N).
Proof.
  intros HF.
  assert (Hlen : (0 < length F)%nat).
  { apply lookup_lt_Some in HF. exact HF. }
  assert (E : task_post 0 (Stop v, solo T P F X [] N)
              = mkWorld T (Some 0) P
                  (<[0%nat := mkFuture (Some (inr v)) []]> F)
                  [(0%nat, Closed)] [] [] false [] N).
  { unfold task_post, solo, settle. cbn. rewrite HF. cbn.
    rewrite ?app_nil_r. reflexivity. }
  rewrite E.
  erewrite run_until_done_finished; [reflexivity|].
  cbn. apply list_lookup_insert_eq. exact Hlen.
Qed.

(** *** The pieces of an iteration *)

Lemma run_log_solo (m : msg) (T : Z) (P : list (Z * msg))
    (F : list future) (X : coroutine_object) (Sch : list (Z * handle))
    (N : nat) :
  run (call (Log false m)) (solo T P F X Sch N)
  = (Stop tt, solo T (P ++ [(T, m)]) F X Sch N).
Proof.
  unfold solo. simpl. unfold log. simpl. rewrite Z.sub_0_r. reflexivity.
Qed.

Lemma run_do_cpu_work_solo (i : nat) (T : Z) (P : list (Z * msg))
    (F : list future) (X : coroutine_object) (Sch : list (Z * handle))
    (N : nat) :
  run (do_cpu_work i) (solo T P F X Sch N)
  = (Stop tt,
     solo (T + WORK_TIME)
       (P ++ [(T, CpuStart i); (T + WORK_TIME, CpuDone i)]) F X Sch N).
Proof.
  unfold solo. simpl. unfold log. simpl.
  rewrite !Z.sub_0_r, <- app_assoc. reflexivity.
Qed.

(** The first step of a write without lock, and its resumption. *)
Lemma write_output_async_steps (i : nat) (w : world) (s : Z) :
  logstart w = Some s ->
  exists k,
    run (write_output_async i false) w =
    (Yielded (length (futures w)) k,
     set_scheduled
       (insert_timer (now w + WRITE_TIME)
          (FutSetResult (length (futures w)) VNone) (scheduled w))
       (set_futures (futures w ++ [mkFuture None []])
          (set_out (out w ++ [(now w - s, TellOS i);
                              (now w - s, OSStarted i)]) w))) /\
    forall w2 s2 cb,
      logstart w2 = Some s2 ->
      futures w2 !! length (futures w)
        = Some (mkFuture (Some (inr VNone)) cb) ->
      run (k None) w2 =
      (Stop VNone,
       set_out (out w2 ++ [(now w2 - s2, OSDone i);
                           (now w2 - s2, Completed i)]) w2).
Proof.
  intros Hs. simpl.
  erewrite log_started by exact Hs. simpl.
  erewrite log_started by (simpl; exact Hs). simpl.
  rewrite list_lookup_middle by reflexivity. simpl.
  eexists. split.
  - rewrite <- app_assoc. reflexivity.
  - intros w2 s2 cb Hs2 Hf. simpl. rewrite Hf. simpl. rewrite Hf. simpl.
    erewrite log_started by exact Hs2. simpl.
    erewrite log_started by (simpl; exact Hs2). simpl.
    rewrite <- app_assoc. reflexivity.
Qed.

Lemma write_output_async_solo (i : nat) (T : Z) (P : list (Z * msg))
    (F : list future) (X : coroutine_object) (N : nat) :
  exists k,
    run (write_output_async i false) (solo T P F X [] N)
    = (Yielded (length F) k,
       solo T (P ++ [(T, TellOS i); (T, OSStarted i)])
         (F ++ [mkFuture None []]) X
         [(T + WRITE_TIME, FutSetResult (length F) VNone)] N) /\
    write_resumes i (length F) k.
Proof.
  destruct (write_output_async_steps i (solo T P F X [] N) 0 eq_refl)
    as (k & Hk & Hres).
  exists k. split.
  - rewrite Hk. unfold solo. simpl. rewrite !Z.sub_0_r. reflexivity.
  - intros T' P' F' X' Sch' N' cb HF'.
    rewrite (Hres (solo T' P' F' X' Sch' N') 0 cb eq_refl HF').
    unfold solo. simpl. rewrite !Z.sub_0_r. reflexivity.
Qed.

(** *** Example 1 *)

Lemma await_immediately_step_run (i : nat) (T : Z) (P : list (Z * msg))
    (F : list future) (X : coroutine_object) (N : nat) :
  exists k,
    run (await_immediately_step false i tt) (solo T P F X [] N)
    = (Yielded (length F) k,
       solo (T + WORK_TIME)
         (P ++ [(T, CpuStart i); (T + WORK_TIME, CpuDone i);
                (T + WORK_TIME, TellOS i); (T + WORK_TIME, OSStarted i)])
         (F ++ [mkFuture None []]) X
         [(T + WORK_TIME + WRITE_TIME, FutSetResult (length F) VNone)] N) /\
    forall T' P' F' X' N' cb,
      F' !! length F = Some (mkFuture (Some (inr VNone)) cb) ->
      run (k None) (solo T' P' F' X' [] N')
      = (Stop tt,
         solo T' (P' ++ [(T', OSDone i); (T', Completed i)]) F' X' [] N').
Proof.
  unfold await_immediately_step.
  rewrite run_bind, run_do_cpu_work_solo, run_bind.
  destruct (write_output_async_solo i (T + WORK_TIME)
              (P ++ [(T, CpuStart i); (T + WORK_TIME, CpuDone i)]) F X N)
    as (k & Hk & Hres).
  rewrite Hk. eexists. split.
  - rewrite <- app_assoc. reflexivity.
  - intros T' P' F' X' N' cb HF'. cbv beta. rewrite run_bind.
    rewrite (Hres T' P' F' X' [] N' cb HF'). reflexivity.
Qed.

Lemma await_immediately_iterations (rest : body value) (l : list nat) :
  forall (T : Z) (P : list (Z * msg)) (F : list future)
         (X : coroutine_object) (N fuel : nat),
    F !! 0%nat = Some (mkFuture None []) ->
    exists F' X',
      F' !! 0%nat = Some (mkFuture None []) /\
      run_until_done (2 * length l + fuel) 0
        (task_post 0
           (run (for_each l tt (await_immediately_step false) ;; rest)
              (solo T P F X [] N)))
      = run_until_done fuel 0
          (task_post 0
             (run rest
                (solo (T + (WORK_TIME + WRITE_TIME) * Z.of_nat (length l))
                   (P ++ await_immediately_lines T l) F' X' []
                   (N + 2 * length l)))).
Proof.
  induction l as [|i l IH]; intros T P F X N fuel HF.
  - exists F, X. split; [exact HF|].
    assert (E : solo (T + (WORK_TIME + WRITE_TIME)
                           * Z.of_nat (length (@nil nat)))
                  (P ++ await_immediately_lines T []) F X []
                  (N + 2 * length (@nil nat))
                = solo T P F X [] N).
    { apply solo_ext; simpl; try reflexivity; try lia. apply app_nil_r. }
    rewrite E. reflexivity.
  - destruct (await_immediately_step_run i T P F X N) as (k & Hk & Hres).
    assert (Hlen : (0 < length F)%nat).
    { apply lookup_lt_Some in HF. exact HF. }
    rewrite for_each_cons, !run_bind, Hk. cbv beta iota.
    replace (2 * length (i :: l) + fuel)%nat
      with (S (S (2 * length l + fuel))) by (simpl length; lia).
    rewrite solo_wait by exact HF. cbv beta.
    rewrite Z.max_r by (unfold WRITE_TIME; lia).
    rewrite !run_bind.
    erewrite Hres by (apply list_lookup_middle; reflexivity).
    cbv beta iota. rewrite <- run_bind.
    match goal with
    | |- context [solo _ ?P2 ?F2 ?X2 [] (S (S N))] =>
        destruct (IH (T + WORK_TIME + WRITE_TIME) P2 F2 X2 (S (S N)) fuel)
          as (F' & X' & HF' & Heq)
    end.
    { rewrite lookup_app_l by exact Hlen. exact HF. }
    exists F', X'. split; [exact HF'|].
    rewrite Heq. f_equal. f_equal. f_equal.
    apply solo_ext; try reflexivity.
    + rewrite length_cons, Nat2Z.inj_succ. lia.
    + cbn [await_immediately_lines]. rewrite <- !app_assoc. reflexivity.
    + rewrite length_cons. lia.
Qed.

(** The loop of example 1 over the indices [l], without lock: the run
    ends after [2 * n + 1] iterations of the event loop, [n] the number
    of indices, on the clock [(WORK_TIME + WRITE_TIME) * n], and every
    write lies between the work of its index and the work of the
    next. *)
Theorem await_immediately_elapsed (l : list nat) :
  exists w,
    run_until_complete (2 * length l + 1)
      (await_immediately_loop l false) initial
    = (Some (inr VNone), w) /\
    now w = (WORK_TIME + WRITE_TIME) * Z.of_nat (length l) /\
    out w = (0, Starting) :: await_immediately_lines 0 l
              ++ [((WORK_TIME + WRITE_TIME) * Z.of_nat (length l), Done)] /\
    iterations w = (2 * length l + 1)%nat.
Proof.
  set (rest := call (Log false Done) ;; Ret VNone).
  replace (2 * length l + 1)%nat with (S (2 * length l + 0)) by lia.
  rewrite first_step.
  change (await_immediately_loop l false)
    with (call (Log true Starting) ;;
          for_each l tt (await_immediately_step false) ;; rest) at 1.
  rewrite run_log_start.
  destruct (await_immediately_iterations rest l 0 [(0, Starting)]
              [mkFuture None []] (Created (await_immediately_loop l false))
              1 0 eq_refl)
    as (F' & X' & HF' & Heq).
  rewrite Heq. clear Heq.
  unfold rest. rewrite run_bind, run_log_solo. cbn [run].
  rewrite solo_done by exact HF'.
  eexists. split; [reflexivity|]. cbn [now out iterations].
  rewrite Z.add_0_l. split; [reflexivity|]. split; [reflexivity|]. lia.
Qed.

(** *** Example 2 *)

Lemma await_before_next_write_step_run (i j : nat) (T : Z)
    (P : list (Z * msg)) (F : list future) (X : coroutine_object) (N : nat) :
  exists k,
    run (await_before_next_write_step false i
           (Some (ACoroutine (write_output_async j false))))
        (solo T P F X [] N)
    = (Yielded (length F) k,
       solo (T + WORK_TIME)
         (P ++ [(T, CpuStart i); (T + WORK_TIME, CpuDone i);
                (T + WORK_TIME, TellOS j); (T + WORK_TIME, OSStarted j)])
         (F ++ [mkFuture None []]) X
         [(T + WORK_TIME + WRITE_TIME, FutSetResult (length F) VNone)] N) /\
    forall T' P' F' X' N' cb,
      F' !! length F = Some (mkFuture (Some (inr VNone)) cb) ->
      run (k None) (solo T' P' F' X' [] N')
      = (Stop (Some (ACoroutine (write_output_async i false))),
         solo T' (P' ++ [(T', OSDone j); (T', Completed j)]) F' X' [] N').
Proof.
  unfold await_before_next_write_step, await_if, await.
  rewrite run_bind, run_do_cpu_work_solo, !run_bind.
  destruct (write_output_async_solo j (T + WORK_TIME)
              (P ++ [(T, CpuStart i); (T + WORK_TIME, CpuDone i)]) F X N)
    as (k & Hk & Hres).
  rewrite Hk. eexists. split.
  - rewrite <- app_assoc. reflexivity.
  - intros T' P' F' X' N' cb HF'. cbv beta. rewrite !run_bind.
    rewrite (Hres T' P' F' X' [] N' cb HF'). reflexivity.
Qed.

Lemma await_before_next_write_first (i : nat) (T : Z) (P : list (Z * msg))
    (F : list future) (X : coroutine_object) (N : nat) :
  run (await_before_next_write_step false i None) (solo T P F X [] N)
  = (Stop (Some (ACoroutine (write_output_async i false))),
     solo (T + WORK_TIME)
       (P ++ [(T, CpuStart i); (T + WORK_TIME, CpuDone i)]) F X [] N).
Proof.
  unfold await_before_next_write_step, await_if.
  rewrite run_bind, run_do_cpu_work_solo. reflexivity.
Qed.

Lemma await_before_next_write_iterations
    (rest : option awaitable_object -> body value) (l : list nat) :
  forall (j : nat) (T : Z) (P : list (Z * msg)) (F : list future)
         (X : coroutine_object) (N fuel : nat),
    F !! 0%nat = Some (mkFuture None []) ->
    exists F' X',
      F' !! 0%nat = Some (mkFuture None []) /\
      run_until_done (2 * length l + fuel) 0
        (task_post 0
           (run (s <- for_each l
                        (Some (ACoroutine (write_output_async j false)))
                        (await_before_next_write_step false) ;;
                 rest s)
              (solo T P F X [] N)))
      = run_until_done fuel 0
          (task_post 0
             (run (rest (Some (ACoroutine
                           (write_output_async (List.last l j) false))))
                (solo (T + (WORK_TIME + WRITE_TIME) * Z.of_nat (length l))
                   (P ++ lazy_lines T j l) F' X' []
                   (N + 2 * length l)))).
Proof.
  induction l as [|i l IH]; intros j T P F X N fuel HF.
  - exists F, X. split; [exact HF|].
    assert (E : solo (T + (WORK_TIME + WRITE_TIME)
                           * Z.of_nat (length (@nil nat)))
                  (P ++ lazy_lines T j []) F X []
                  (N + 2 * length (@nil nat))
                = solo T P F X [] N).
    { apply solo_ext; simpl; try reflexivity; try lia. apply app_nil_r. }
    rewrite E. reflexivity.
  - destruct (await_before_next_write_step_run i j T P F X N)
      as (k & Hk & Hres).
    assert (Hlen : (0 < length F)%nat).
    { apply lookup_lt_Some in HF. exact HF. }
    rewrite for_each_cons, !run_bind, Hk. cbv beta iota.
    replace (2 * length (i :: l) + fuel)%nat
      with (S (S (2 * length l + fuel))) by (simpl length; lia).
    rewrite solo_wait by exact HF. cbv beta.
    rewrite Z.max_r by (unfold WRITE_TIME; lia).
    rewrite !run_bind.
    erewrite Hres by (apply list_lookup_middle; reflexivity).
    cbv beta iota. rewrite <- run_bind.
    match goal with
    | |- context [solo _ ?P2 ?F2 ?X2 [] (S (S N))] =>
        destruct (IH i (T + WORK_TIME + WRITE_TIME) P2 F2 X2 (S (S N)) fuel)
          as (F' & X' & HF' & Heq)
    end.
    { rewrite lookup_app_l by exact Hlen. exact HF. }
    exists F', X'. split; [exact HF'|].
    rewrite Heq. f_equal. f_equal.
    rewrite last_cons_default.
    f_equal. apply solo_ext; try reflexivity.
    + rewrite length_cons, Nat2Z.inj_succ. lia.
    + cbn [lazy_lines]. rewrite <- !app_assoc. reflexivity.
    + rewrite length_cons. lia.
Qed.

(** The loop of example 2 over the indices [i :: l], without lock: the
    run ends after [2 * n + 1] iterations of the event loop, [n] the
    number of indices, on the clock [(WORK_TIME + WRITE_TIME) * n]: each
    write only starts when it is awaited, after the work of the next
    index (the last one after the loop), and the loop waits for it in
    full. *)
Theorem await_before_next_write_elapsed (i : nat) (l : list nat) :
  exists w,
    run_until_complete (2 * length (i :: l) + 1)
      (await_before_next_write_loop (i :: l) false) initial
    = (Some (inr VNone), w) /\
    now w = (WORK_TIME + WRITE_TIME) * Z.of_nat (length (i :: l)) /\
    out w = await_before_next_write_lines i l /\
    iterations w = (2 * length (i :: l) + 1)%nat.
Proof.
  set (rest := fun lastWrite : option awaitable_object =>
                 await_last lastWrite ;; call (Log false Done) ;; Ret VNone).
  replace (2 * length (i :: l) + 1)%nat with (S (2 * length l + 2))
    by (simpl length; lia).
  rewrite first_step.
  change (await_before_next_write_loop (i :: l) false)
    with (call (Log true Starting) ;;
          s <- for_each (i :: l) None (await_before_next_write_step false) ;;
          rest s) at 1.
  rewrite run_log_start.
  rewrite for_each_cons.
  rewrite (run_bind (bind (await_before_next_write_step false i None) _)).
  rewrite (run_bind (await_before_next_write_step false i None)).
  rewrite await_before_next_write_first. cbv beta iota.
  rewrite <- run_bind.
  match goal with
  | |- context [solo ?T1 ?P1 ?F1 ?X1 [] ?N1] =>
      destruct (await_before_next_write_iterations rest l i T1 P1 F1 X1 N1
                  2 eq_refl) as (F' & X' & HF' & Heq)
  end.
  rewrite Heq. clear Heq.
  unfold rest at 1, await_last, await. rewrite !run_bind.
  match goal with
  | |- context [run (write_output_async ?j false) (solo ?T1 ?P1 ?F1 ?X1 [] ?N1)] =>
      destruct (write_output_async_solo j T1 P1 F1 X1 N1) as (k & Hk & Hres)
  end.
  rewrite Hk. cbv beta iota.
  rewrite solo_wait by exact HF'. cbv beta.
  rewrite Z.max_r by (unfold WRITE_TIME; lia).
  rewrite !run_bind.
  erewrite Hres by (apply list_lookup_middle; reflexivity).
  cbv beta iota. cbn [run]. cbv beta iota.
  rewrite run_bind, run_log_solo. cbn [run].
  rewrite solo_done; cycle 1.
  { apply lookup_lt_Some in HF' as Hlen.
    rewrite lookup_app_l by exact Hlen. exact HF'. }
  eexists. split; [reflexivity|]. cbn [now out iterations].
  split; [|split].
  - rewrite length_cons, Nat2Z.inj_succ. lia.
  - unfold await_before_next_write_lines. cbn zeta.
    rewrite Z.add_0_l. cbn [app]. rewrite <- !app_assoc. reflexivity.
  - simpl length. lia.
Qed.

(** *** The loops that start the write in the call *)

Section Overlapped.

Context {A : Type}.
Variable tell : nat -> msg.
Variable start : nat -> body A.
Variable wrap : A -> awaitable_object.

Hypothesis start_run :
  forall i T P F X N,
    exists a,
      run (start i) (solo T P F X [] N)
      = (Stop a,
         solo T (P ++ [(T, tell i); (T, OSStarted i)])
           (F ++ [mkFuture None []]) X
           [(T + WRITE_TIME, FutSetResult (length F) VNone)] N) /\
      pending_write i (length F) (wrap a).

Lemma overlapped_first (i : nat) (T : Z) (P : list (Z * msg))
    (F : list future) (X : coroutine_object) (N : nat) :
  exists a,
    run (overlapped_step start wrap i None) (solo T P F X [] N)
    = (Stop (Some (wrap a)),
       solo (T + WORK_TIME)
         (P ++ [(T, CpuStart i); (T + WORK_TIME, CpuDone i);
                (T + WORK_TIME, tell i); (T + WORK_TIME, OSStarted i)])
         (F ++ [mkFuture None []]) X
         [(T + WORK_TIME + WRITE_TIME, FutSetResult (length F) VNone)] N) /\
    pending_write i (length F) (wrap a).
Proof.
  unfold overlapped_step, await_if.
  rewrite run_bind, run_do_cpu_work_solo. cbn [bind].
  destruct (start_run i (T + WORK_TIME)
              (P ++ [(T, CpuStart i); (T + WORK_TIME, CpuDone i)]) F X N)
    as (a & Ha & Hpend).
  exists a. split; [|exact Hpend].
  rewrite run_bind, Ha. cbn [run]. rewrite <- app_assoc. reflexivity.
Qed.

Lemma overlapped_step_run (i j : nat) (T : Z) (P : list (Z * msg))
    (F : list future) (X : coroutine_object) (Sch : list (Z * handle))
    (N : nat) (a0 : awaitable_object) :
  pending_write j (length F) a0 ->
  exists K,
    run (overlapped_step start wrap i (Some a0))
        (solo T P (F ++ [mkFuture None []]) X Sch N)
    = (Yielded (length F) K,
       solo (T + WORK_TIME)
         (P ++ [(T, CpuStart i); (T + WORK_TIME, CpuDone i)])
         (F ++ [mkFuture None []]) X Sch N) /\
    forall T' P' X' N',
      exists a,
        run (K None)
          (solo T' P' (F ++ [mkFuture (Some (inr VNone)) []]) X' [] N')
        = (Stop (Some (wrap a)),
           solo T'
             (P' ++ [(T', OSDone j); (T', Completed j);
                     (T', tell i); (T', OSStarted i)])
             ((F ++ [mkFuture (Some (inr VNone)) []]) ++ [mkFuture None []])
             X' [(T' + WRITE_TIME, FutSetResult (S (length F)) VNone)] N') /\
        pending_write i (S (length F)) (wrap a).
Proof.
  intros Hpend.
  unfold overlapped_step, await_if.
  rewrite run_bind, run_do_cpu_work_solo. cbv beta iota.
  destruct (Hpend (T + WORK_TIME)
              (P ++ [(T, CpuStart i); (T + WORK_TIME, CpuDone i)])
              (F ++ [mkFuture None []]) X Sch N [])
    as (k & Hk & Hres).
  { apply list_lookup_middle. reflexivity. }
  rewrite !run_bind, Hk. cbv beta iota.
  eexists. split; [reflexivity|].
  intros T' P' X' N'. cbv beta.
  destruct (start_run i T'
              (P' ++ [(T', OSDone j); (T', Completed j)])
              (F ++ [mkFuture (Some (inr VNone)) []]) X' N')
    as (a & Ha & Hpend').
  rewrite length_app in Ha, Hpend'. cbn [length] in Ha, Hpend'.
  rewrite Nat.add_1_r in Ha, Hpend'.
  exists a. split; [|exact Hpend'].
  rewrite !run_bind.
  erewrite Hres by (apply list_lookup_middle; reflexivity).
  cbn [run]. cbv beta iota. rewrite run_bind, Ha. cbn [run].
  rewrite <- app_assoc. reflexivity.
Qed.

Lemma overlapped_iterations
    (rest : option awaitable_object -> body value) (l : list nat) :
  forall (j : nat) (T : Z) (P : list (Z * msg)) (F : list future)
         (X : coroutine_object) (N fuel : nat) (a : awaitable_object),
    F !! 0%nat = Some (mkFuture None []) ->
    pending_write j (length F) a ->
    exists F' X' a',
      F' !! 0%nat = Some (mkFuture None []) /\
      pending_write (List.last l j) (length F') a' /\
      run_until_done (2 * length l + fuel) 0
        (task_post 0
           (run (s <- for_each l (Some a) (overlapped_step start wrap) ;;
                 rest s)
              (solo T P (F ++ [mkFuture None []]) X
                 [(T + WRITE_TIME, FutSetResult (length F) VNone)] N)))
      = run_until_done fuel 0
          (task_post 0
             (run (rest (Some a'))
                (solo (T + WORK_TIME * Z.of_nat (length l))
                   (P ++ overlapped_lines tell T j l)
                   (F' ++ [mkFuture None []]) X'
                   [(T + WORK_TIME * Z.of_nat (length l) + WRITE_TIME,
                     FutSetResult (length F') VNone)]
                   (N + 2 * length l)))).
Proof.
  induction l as [|i l IH]; intros j T P F X N fuel a HF Hpend.
  - exists F, X, a. split; [exact HF|]. split; [exact Hpend|].
    assert (E : solo (T + WORK_TIME * Z.of_nat (length (@nil nat)))
                  (P ++ overlapped_lines tell T j [])
                  (F ++ [mkFuture None []]) X
                  [(T + WORK_TIME * Z.of_nat (length (@nil nat)) + WRITE_TIME,
                    FutSetResult (length F) VNone)]
                  (N + 2 * length (@nil nat))
                = solo T P (F ++ [mkFuture None []]) X
                    [(T + WRITE_TIME, FutSetResult (length F) VNone)] N).
    { apply solo_ext; simpl; try reflexivity; try lia.
      - apply app_nil_r.
      - repeat f_equal. lia. }
    rewrite E. reflexivity.
  - destruct (overlapped_step_run i j T P F X
                [(T + WRITE_TIME, FutSetResult (length F) VNone)] N a Hpend)
      as (K & HK & Hnext).
    assert (Hlen : (0 < length F)%nat).
    { apply lookup_lt_Some in HF. exact HF. }
    rewrite for_each_cons, !run_bind, HK. cbv beta iota.
    replace (2 * length (i :: l) + fuel)%nat
      with (S (S (2 * length l + fuel))) by (simpl length; lia).
    rewrite solo_wait by exact HF. cbv beta.
    rewrite Z.max_l by (unfold WORK_TIME, WRITE_TIME; lia).
    rewrite !run_bind.
    match goal with
    | |- context [run (K None) (solo ?T1 ?P1 _ ?X1 [] ?N1)] =>
        destruct (Hnext T1 P1 X1 N1) as (a1 & Ha1 & Hpend1)
    end.
    rewrite Ha1. cbv beta iota. rewrite <- run_bind.
    assert (HF2 : (F ++ [mkFuture (Some (inr VNone)) []]) !! 0%nat
                  = Some (mkFuture None [])).
    { rewrite lookup_app_l by exact Hlen. exact HF. }
    assert (HL : length (F ++ [mkFuture (Some (inr VNone)) []])
                 = S (length F)).
    { rewrite length_app. simpl. lia. }
    rewrite <- HL in Hpend1. rewrite <- HL.
    match goal with
    | |- context [solo _ ?P2 (?F2 ++ [mkFuture None []]) ?X2 _ (S (S N))] =>
        destruct (IH i (T + WORK_TIME) P2 F2 X2 (S (S N)) fuel (wrap a1)
                    HF2 Hpend1)
          as (F' & X' & a' & HF' & Hpend' & Heq)
    end.
    exists F', X', a'. split; [exact HF'|].
    rewrite last_cons_default. split; [exact Hpend'|].
    rewrite Heq. f_equal. f_equal. f_equal.
    assert (HT : T + WORK_TIME + WORK_TIME * Z.of_nat (length l)
                 = T + WORK_TIME * Z.of_nat (length (i :: l))).
    { rewrite length_cons, Nat2Z.inj_succ. lia. }
    rewrite HT.
    apply solo_ext; try reflexivity.
    + cbn [overlapped_lines]. rewrite <- !app_assoc. reflexivity.
    + rewrite length_cons. lia.
Qed.

Lemma overlapped_loop_run (i : nat) (l : list nat) :
  exists w,
    run_until_complete (2 * length (i :: l) + 1)
      (overlapped_loop start wrap (i :: l)) initial
    = (Some (inr VNone), w) /\
    now w = WORK_TIME * Z.of_nat (length (i :: l)) + WRITE_TIME /\
    out w = overlapped_loop_lines tell i l /\
    iterations w = (2 * length (i :: l) + 1)%nat.
Proof.
  set (rest := fun lastWrite : option awaitable_object =>
                 call (Log false AwaitingLastWrite) ;;
                 await_last lastWrite ;; call (Log false Done) ;; Ret VNone).
  replace (2 * length (i :: l) + 1)%nat with (S (2 * length l + 2))
    by (simpl length; lia).
  rewrite first_step.
  change (overlapped_loop start wrap (i :: l))
    with (call (Log true Starting) ;;
          s <- for_each (i :: l) None (overlapped_step start wrap) ;;
          rest s) at 1.
  rewrite run_log_start.
  rewrite for_each_cons.
  rewrite (run_bind (bind (overlapped_step start wrap i None) _)).
  rewrite (run_bind (overlapped_step start wrap i None)).
  match goal with
  | |- context [run (overlapped_step start wrap i None)
                  (solo ?T1 ?P1 ?F1 ?X1 [] ?N1)] =>
      destruct (overlapped_first i T1 P1 F1 X1 N1) as (a & Ha & Hpend)
  end.
  rewrite Ha. cbv beta iota. rewrite <- run_bind.
  match goal with
  | |- context [solo ?T1 ?P1 (?F1 ++ [mkFuture None []]) ?X1 _ ?N1] =>
      destruct (overlapped_iterations rest l i T1 P1 F1 X1 N1 2 (wrap a)
                  eq_refl Hpend) as (F' & X' & a' & HF' & Hpend' & Heq)
  end.
  rewrite Heq. clear Heq.
  unfold rest at 1, await_last.
  rewrite run_bind, run_log_solo. cbv beta iota.
  match goal with
  | |- context [run _ (solo ?T1 ?P1 ?F1 ?X1 ?S1 ?N1)] =>
      destruct (Hpend' T1 P1 F1 X1 S1 N1 [])
        as (k & Hk & Hres)
  end.
  { apply list_lookup_middle. reflexivity. }
  rewrite !run_bind, Hk. cbv beta iota.
  rewrite solo_wait by exact HF'. cbv beta iota.
  rewrite Z.max_r by (unfold WRITE_TIME; lia).
  rewrite !run_bind.
  erewrite Hres by (apply list_lookup_middle; reflexivity).
  cbn [run]. cbv beta iota.
  rewrite run_bind, run_log_solo. cbn [run].
  rewrite solo_done; cycle 1.
  { apply lookup_lt_Some in HF' as Hlen.
    rewrite lookup_app_l by exact Hlen. exact HF'. }
  eexists. split; [reflexivity|]. cbn [now out iterations].
  split; [|split].
  - rewrite length_cons, Nat2Z.inj_succ. lia.
  - unfold overlapped_loop_lines. cbn zeta.
    rewrite length_cons, Nat2Z.inj_succ.
    replace (0 + WORK_TIME + WORK_TIME * Z.of_nat (length l))
      with (WORK_TIME * Z.succ (Z.of_nat (length l))) by lia.
    rewrite Z.add_0_l. cbn [app]. rewrite <- !app_assoc. reflexivity.
  - simpl length. lia.
Qed.

End Overlapped.

Lemma AJSLike_pending_write (j f : nat) (k : option exn -> body value) :
  write_resumes j f k ->
  pending_write j f (AJSLike (mkJSLikeCoroutine f (Suspended k))).
Proof.
  intros Hres T P F X Sch N cb _.
  eexists. split; [reflexivity|].
  intros T' P' F' X' Sch' N' cb' HF'. cbn [coro_obj]. cbv beta iota.
  rewrite run_JSLike_loop, (Hres T' P' F' X' Sch' N' cb' HF').
  reflexivity.
Qed.

Lemma fixed_write_output_async_starts (i : nat) (T : Z) (P : list (Z * msg))
    (F : list future) (X : coroutine_object) (N : nat) :
  exists a,
    run (fixed_write_output_async (i, false)) (solo T P F X [] N)
    = (Stop a,
       solo T (P ++ [(T, TellOS i); (T, OSStarted i)])
         (F ++ [mkFuture None []]) X
         [(T + WRITE_TIME, FutSetResult (length F) VNone)] N) /\
    pending_write i (length F) a.
Proof.
  destruct (write_output_async_solo i T P F X N) as (k & Hk & Hres).
  eexists. split.
  - unfold fixed_write_output_async, js_like_await.
    rewrite run_coroutine_with_js_like_await. cbn [fst snd].
    rewrite Hk. reflexivity.
  - apply AJSLike_pending_write. exact Hres.
Qed.

Lemma wait_for_inner_pending_write (i f : nat) :
  pending_write i f (ACoroutine (_wait_for_inner i (_wait_for_write i f))).
Proof.
  intros T P F X Sch N cb HF.
  unfold solo. simpl. rewrite HF. simpl.
  eexists. split; [reflexivity|].
  intros T' P' F' X' Sch' N' cb' HF'.
  unfold solo. simpl. rewrite HF'. simpl. rewrite HF'. simpl.
  unfold log. simpl. rewrite !Z.sub_0_r, <- app_assoc. reflexivity.
Qed.

Lemma write_output_awaitable_starts (i : nat) (T : Z) (P : list (Z * msg))
    (F : list future) (X : coroutine_object) (N : nat) :
  exists a,
    run (write_output_awaitable i false) (solo T P F X [] N)
    = (Stop a,
       solo T (P ++ [(T, TellOSAwaitable i); (T, OSStarted i)])
         (F ++ [mkFuture None []]) X
         [(T + WRITE_TIME, FutSetResult (length F) VNone)] N) /\
    pending_write i (length F) (ACoroutine a).
Proof.
  eexists. split.
  - unfold solo. simpl. unfold log. simpl.
    rewrite !Z.sub_0_r, <- app_assoc. reflexivity.
  - apply wait_for_inner_pending_write.
Qed.

(** The loop of example 10 over the indices [i :: l], without lock: the
    run ends after [2 * n + 1] iterations of the event loop on the clock
    [WORK_TIME * n + WRITE_TIME]: the decorated function has started the
    write when it returns, the write runs during the work of the next
    index and is over when it is awaited ([WRITE_TIME <= WORK_TIME]);
    only the last write is waited for. *)
Theorem fixed_write_elapsed (i : nat) (l : list nat) :
  exists w,
    run_until_complete (2 * length (i :: l) + 1)
      (fixed_write_loop (i :: l) false) initial
    = (Some (inr VNone), w) /\
    now w = WORK_TIME * Z.of_nat (length (i :: l)) + WRITE_TIME /\
    out w = overlapped_loop_lines TellOS i l /\
    iterations w = (2 * length (i :: l) + 1)%nat.
Proof.
  apply (overlapped_loop_run TellOS
           (fun i => fixed_write_output_async (i, false)) (fun a => a)).
  intros. apply fixed_write_output_async_starts.
Qed.

(** The same loop with the function fixed by hand, [write_output_awaitable],
    takes the same time and prints the same lines but for the first line
    of each write. *)
Theorem fixed_function_elapsed (i : nat) (l : list nat) :
  exists w,
    run_until_complete (2 * length (i :: l) + 1)
      (fixed_function_loop (i :: l) false) initial
    = (Some (inr VNone), w) /\
    now w = WORK_TIME * Z.of_nat (length (i :: l)) + WRITE_TIME /\
    out w = overlapped_loop_lines TellOSAwaitable i l /\
    iterations w = (2 * length (i :: l) + 1)%nat.
Proof.
  apply (overlapped_loop_run TellOSAwaitable
           (fun i => write_output_awaitable i false) ACoroutine).
  intros. apply write_output_awaitable_starts.
Qed.

End Loops.

(** ** Examples 3 and 4 *)

(** In examples 3 and 4 the writes are coroutines handed to [gather]
    after the loop, or tasks created in the loop: none of them starts
    before the loop over the work is over, at [3 * WORK_TIME]; they then
    run together, and the run takes [3 * WORK_TIME + WRITE_TIME].  This
    is the transcript that the notebook shows for both. *)
Theorem create_then_wait_transcript :
  let tr :=
    [(0, Starting); (0, CpuStart 0); (2, CpuDone 0); (2, CpuStart 1);
     (4, CpuDone 1); (4, CpuStart 2); (6, CpuDone 2);
     (6, TellOS 0); (6, OSStarted 0); (6, TellOS 1); (6, OSStarted 1);
     (6, TellOS 2); (6, OSStarted 2);
     (7, OSDone 0); (7, Completed 0); (7, OSDone 1); (7, Completed 1);
     (7, OSDone 2); (7, Completed 2); (7, Done)] in
  transcript example3_gather = tr /\
  elapsed example3_gather = Some (3 * WORK_TIME + WRITE_TIME) /\
  transcript example4_taskgroup_create_task_outside_loop = tr /\
  elapsed example4_taskgroup_create_task_outside_loop
    = Some (3 * WORK_TIME + WRITE_TIME).
Proof. vm_compute. repeat split. Qed.
